(** * Terabox relay bot: a shallow embedding of [terabox.py]

    The development follows the source file top-down:

    - [Py]        : the few Python notions the code relies on (exceptions,
                    results, string helpers, true division followed by
                    [math.ceil], decimal and hexadecimal formatting);
    - [TokenStore]: the MongoDB collection [user_requests] and the three
                    token functions [generate_uuid], [activate_token],
                    [has_valid_token], together with [start_handler];
    - [Url]       : [is_valid_url] over a model of [urllib.parse.urlparse];
    - [Pipeline]  : the download/upload pipeline ([handle_upload],
                    [split_video], [split_and_upload], [upload_file],
                    [cleanup]) as a state-and-exception monad over a world
                    made of the local disk and a trace of external calls;
    - [Scenarios] : the concrete environments of the examples.
    - [Progress]  : [format_size], [safe_edit] and [track_download_progress]
                    over scripts of outcomes of the outside calls;
    - [Handlers]  : the link scan of [handle_message];
    - [Traces]    : projections of a trace ([TokenDocuments] and
                    [MoreScenarios] hold further abbreviations and runs).

    The second half proves the properties, module by module ([PyFacts],
    [TokenFacts], [PipelineFacts], [UrlFacts]).

    Modelling conventions.
    - A Python [str] is a [string]; every character the code inspects is a
      delimiter or a digit, so one [ascii] stands for one character.
    - A [datetime] is a number of microseconds counted from [datetime.min],
      hence a natural number [N]; [datetime.min] itself is [0]. A datetime
      written to the collection is kept to the millisecond
      ([bson_datetime]).
    - A Python [float] is a binary64 primitive float.
    - [await] is sequential composition: each coroutine of the pipeline is
      awaited at once by its caller, and cancellation is not modelled. *)

From Stdlib Require Import ZArith NArith Lia Ascii String DecimalString DecimalN.
From Stdlib Require Import Floats.PrimFloat Numbers.Cyclic.Int63.Uint63.
From stdpp Require Import base option list gmap strings.

Local Open Scope Z_scope.

(** ** Python basics *)

Module Py.

(** The exception classes that the modelled code can meet. All of them derive
    from [Exception], so every [except Exception] handler catches them. *)
Inductive exn : Type :=
  | ValueError
  | TypeError
  | IndexError
  | ZeroDivisionError
  | OSError
  | FileNotFoundError
  | UnboundLocalError
  | RPCError.

(** Outcome of evaluating a Python expression or call. *)
Inductive result (A : Type) : Type :=
  | Ok (a : A)
  | Raise (e : exn).

Arguments Ok {A} a.
Arguments Raise {A} e.

(** [s[n:]] *)
Fixpoint drop (n : nat) (s : string) : string :=
  match n, s with
  | O, _ => s
  | S n', EmptyString => EmptyString
  | S n', String _ s' => drop n' s'
  end.

(** [s[:n]] *)
Fixpoint take (n : nat) (s : string) : string :=
  match n, s with
  | O, _ => EmptyString
  | S n', EmptyString => EmptyString
  | S n', String a s' => String a (take n' s')
  end.

(** [s.endswith(suffix)]: some tail of [s] is [suffix]. *)
Fixpoint endswith (s suffix : string) : bool :=
  if String.eqb s suffix then true
  else match s with
       | EmptyString => false
       | String _ s' => endswith s' suffix
       end.

(** [c in s] for a one-character [c] *)
Fixpoint contains (c : ascii) (s : string) : bool :=
  match s with
  | EmptyString => false
  | String a s' => if Ascii.eqb a c then true else contains c s'
  end.

(** [s.find(c)] for a one-character [c]; [None] stands for [-1]. *)
Fixpoint find (c : ascii) (s : string) : option nat :=
  match s with
  | EmptyString => None
  | String a s' => if Ascii.eqb a c then Some 0%nat else S <$> find c s'
  end.

(** [s.find(c, start)] *)
Definition find_from (c : ascii) (start : nat) (s : string) : option nat :=
  (fun i => (start + i)%nat) <$> find c (drop start s).

(** [s.rfind(c)] *)
Fixpoint rfind (c : ascii) (s : string) : option nat :=
  match s with
  | EmptyString => None
  | String a s' =>
      match rfind c s' with
      | Some i => Some (S i)
      | None => if Ascii.eqb a c then Some 0%nat else None
      end
  end.

(** [s.replace(c, "")] for a one-character [c] *)
Fixpoint remove_char (c : ascii) (s : string) : string :=
  match s with
  | EmptyString => EmptyString
  | String a s' =>
      if Ascii.eqb a c then remove_char c s' else String a (remove_char c s')
  end.

(** [s.lstrip(chars)] with the set [chars] given as a predicate *)
Fixpoint lstrip (p : ascii -> bool) (s : string) : string :=
  match s with
  | EmptyString => EmptyString
  | String a s' => if p a then lstrip p s' else s
  end.

(** [all(p(c) for c in s)] *)
Fixpoint all_chars (p : ascii -> bool) (s : string) : bool :=
  match s with
  | EmptyString => true
  | String a s' => p a && all_chars p s'
  end.

(** ['%x' % d] for one hexadecimal digit *)
Definition hex_digit (d : N) : ascii :=
  match String.get (N.to_nat d) "0123456789abcdef" with
  | Some a => a
  | None => "0"%char
  end.

(** ['%0<width>x' % n] for [n < 16 ^ width]: exactly [width] digits, the most
    significant first. *)
Fixpoint hex_fixed (width : nat) (n : N) : string :=
  match width with
  | O => EmptyString
  | S w => hex_fixed w (n / 16) +:+ String (hex_digit (n mod 16)) EmptyString
  end.

(** [uuid.uuid4()]: sixteen random bytes, read as a big-endian integer [rand],
    with the variant and version bits forced (RFC 4122, version 4). *)
Definition uuid4 (rand : N) : N :=
  let int := (rand mod 2 ^ 128)%N in
  let int := N.ldiff int (N.shiftl 0xc000 48) in
  let int := N.lor int (N.shiftl 0x8000 48) in
  let int := N.ldiff int (N.shiftl 0xf000 64) in
  N.lor int (N.shiftl 4 76).

(** [str(u)] for a UUID [u]: the 32 hexadecimal digits in groups of
    8-4-4-4-12 separated by hyphens. *)
Definition uuid_str (int : N) : string :=
  let hex := hex_fixed 32 int in
  take 8 hex +:+ "-" +:+ take 4 (drop 8 hex) +:+ "-" +:+ take 4 (drop 12 hex)
    +:+ "-" +:+ take 4 (drop 16 hex) +:+ "-" +:+ drop 20 hex.

(** ['0' * n] *)
Fixpoint zeros (n : nat) : string :=
  match n with
  | O => EmptyString
  | S n' => String "0"%char (zeros n')
  end.

(** [f"{n:03d}"] for [n >= 0]: the decimal digits, padded on the left with
    zeros up to three characters (longer numbers are not cut). *)
Definition format_03d (n : N) : string :=
  let digits := NilEmpty.string_of_uint (N.to_uint n) in
  zeros (3 - String.length digits) +:+ digits.

(** [int(s)] for a string of decimal digits *)
Definition int_of_digits (s : string) : option N :=
  N.of_uint <$> NilEmpty.uint_of_string s.

(** [os.path.splitext(p)] on POSIX: the extension starts at the last dot of
    the last path component, unless that component has only leading dots
    before it. *)
Definition splitext (p : string) : string * string :=
  let filenameIndex :=
    match rfind "/"%char p with Some sepIndex => S sepIndex | None => O end in
  match rfind "."%char p with
  | Some dotIndex =>
      if Nat.leb filenameIndex dotIndex
         && negb (all_chars (Ascii.eqb "."%char)
                    (take (dotIndex - filenameIndex) (drop filenameIndex p)))
      then (take dotIndex p, drop dotIndex p)
      else (p, EmptyString)
  | None => (p, EmptyString)
  end.

(** [float(a)] for an integer [0 <= a]: the nearest integer with a 53-bit
    significand, ties to even. *)
Definition round53 (a : Z) : Z :=
  if a <? 2 ^ 53 then a
  else
    let e := Z.log2 a - 52 in
    let q := Z.shiftr a e in
    let r := a - Z.shiftl q e in
    let half := 2 ^ (e - 1) in
    let up := (half <? r) || ((r =? half) && Z.odd q) in
    Z.shiftl (if up then q + 1 else q) e.

(** [math.ceil(a / b)] for [0 <= a] and [b] a power of two. True division
    yields the correctly rounded quotient; as dividing by a power of two only
    moves the exponent, that quotient is [round53 a / b] exactly, and
    [math.ceil] of it is computed without further rounding. *)
Definition ceil_truediv (a b : Z) : Z := (round53 a + b - 1) / b.

(** [float(n)] for an integer [0 <= n < 2^63]. *)
Definition float_of_int (n : Z) : float := PrimFloat.of_uint63 (Uint63.of_Z n).

End Py.

Export Py.

(** ** The token store (lines 137-158) and the start command (lines 219-242) *)

Module TokenStore.

Definition TOKEN_EXPIRY_HOURS : N := 12.

(** [datetime.min], the least datetime. *)
Definition datetime_min : N := 0%N.

(** [timedelta(hours=h)] in microseconds. *)
Definition timedelta_hours (h : N) : N := (h * 3600 * 1000000)%N.

(** The value stored under the key ["token_expiry"]: the key may be missing,
    hold [None] (BSON null), or hold a datetime. *)
Inductive expiry_field : Type :=
  | ExpiryAbsent
  | ExpiryNull
  | ExpiryAt (t : N).

(** A document of the collection [user_requests]. A key other than [user_id]
    may be missing ([None]). *)
Record document : Type := Document {
  user_id : Z;
  token : option string;
  token_status : option string;
  token_expiry : expiry_field
}.

#[global] Instance expiry_field_eq_dec : EqDecision expiry_field.
Proof. solve_decision. Defined.

#[global] Instance document_eq_dec : EqDecision document.
Proof. solve_decision. Defined.

(** The collection, in its natural (insertion) order: [find_one] and
    [update_one] take the first document that matches. The indexes created
    at start-up are not unique, so the collection itself does not forbid two
    documents with one [user_id]. *)
Abbreviation collection := (list document).

(** pymongo's [UpdateResult]. *)
Record update_result : Type := UpdateResult {
  matched_count : nat;
  modified_count : nat
}.

(** [collection.find_one(query)] *)
Fixpoint find_one (query : document -> bool) (c : collection) : option document :=
  match c with
  | [] => None
  | d :: c' => if query d then Some d else find_one query c'
  end.

(** [collection.update_one(query, {"$set": ...})]: the first matching document
    is rewritten by [set]; it counts as modified only when the rewrite changes
    it. *)
Fixpoint update_one (query : document -> bool) (set : document -> document)
    (c : collection) : update_result * collection :=
  match c with
  | [] => (UpdateResult 0 0, [])
  | d :: c' =>
      if query d then
        (UpdateResult 1 (if decide (set d = d) then 0 else 1), set d :: c')
      else
        let '(r, c'') := update_one query set c' in (r, d :: c'')
  end.

(** [collection.update_one(query, {"$set": ...}, upsert=True)]: when nothing
    matches, the document [seed] made of the equality conditions of the query
    is rewritten by [set] and inserted. *)
Definition update_one_upsert (query : document -> bool)
    (set : document -> document) (seed : document) (c : collection)
    : update_result * collection :=
  let '(r, c') := update_one query set c in
  match matched_count r with
  | O => (r, c ++ [set seed])
  | S _ => (r, c')
  end.

Definition by_user (uid : Z) (d : document) : bool := Z.eqb (user_id d) uid.

Definition by_user_and_token (uid : Z) (tok : string) (d : document) : bool :=
  Z.eqb (user_id d) uid && bool_decide (token d = Some tok).

(** Lines 137-144. [rand] is the randomness consumed by [uuid.uuid4()]. *)
Definition generate_uuid (uid : Z) (rand : N) (c : collection)
    : string * collection :=
  let tok := uuid_str (uuid4 rand) in
  let '(_, c') :=
    update_one_upsert (by_user uid)
      (fun d => Document (user_id d) (Some tok) (Some "inactive") ExpiryNull)
      (Document uid None None ExpiryAbsent) c in
  (tok, c').

(** A datetime as the store keeps it. A BSON datetime counts whole
    milliseconds: when pymongo encodes a [datetime] it keeps
    [microsecond // 1000], so the microseconds below the millisecond are
    dropped on the way into the collection. *)
Definition bson_datetime (t : N) : N := (t / 1000 * 1000)%N.

(** Lines 146-152. [now] is the value of [datetime.now()]. The datetime of
    the [$set] reaches the store as a BSON datetime, so the comparison that
    decides [modified_count] and the document left in the collection both
    see it cut to the millisecond. *)
Definition activate_token (uid : Z) (tok : string) (now : N) (c : collection)
    : bool * collection :=
  let '(r, c') :=
    update_one (by_user_and_token uid tok)
      (fun d => Document (user_id d) (token d) (Some "active")
                  (ExpiryAt
                     (bson_datetime (now + timedelta_hours TOKEN_EXPIRY_HOURS))))
      c in
  (Nat.ltb 0 (modified_count r), c').

(** Lines 154-158. Comparing a datetime with [None] raises [TypeError]; a
    missing key falls back to [datetime.min]. The collection is only read. *)
Definition has_valid_token (uid : Z) (now : N) (c : collection)
    : result bool * collection :=
  match find_one (by_user uid) c with
  | Some user_data =>
      if bool_decide (token_status user_data = Some "active") then
        match token_expiry user_data with
        | ExpiryAt t => (Ok (N.ltb now t), c)
        | ExpiryAbsent => (Ok (N.ltb now datetime_min), c)
        | ExpiryNull => (Raise TypeError, c)
        end
      else (Ok false, c)
  | None => (Ok false, c)
  end.

(** The collections that the three token functions can produce, starting
    from the empty collection. *)
Inductive reachable : collection -> Prop :=
  | reachable_empty : reachable []
  | reachable_issue (c : collection) (uid : Z) (rand : N) :
      reachable c -> reachable (generate_uuid uid rand c).2
  | reachable_activate (c : collection) (uid : Z) (tok : string) (now : N) :
      reachable c -> reachable (activate_token uid tok now c).2
  | reachable_validate (c : collection) (uid : Z) (now : N) :
      reachable c -> reachable (has_valid_token uid now c).2.

(** An active document carries a datetime under ["token_expiry"]. *)
Definition active_has_expiry (d : document) : Prop :=
  token_status d = Some "active"%string ->
  exists t, token_expiry d = ExpiryAt t.

(** The calls a handler makes on the store, in order. *)
Inductive store_call : Type :=
  | CallActivate (uid : Z) (tok : string)
  | CallHasValid (uid : Z)
  | CallGenerate (uid : Z).

(** The caption chosen by [start_handler]. *)
Inductive caption : Type :=
  | TokenActivated
  | InvalidToken
  | GenerateYourToken (tok : string)
  | AlreadyActive.

(** The test of line 228: [len(message.command) > 1 and
    len(message.command[1]) == 36]; when it holds, [message.command[1]]. *)
Definition activation_argument (command : list string) : option string :=
  if Nat.ltb 1 (length command) then
    match command !! 1%nat with
    | Some arg => if Nat.eqb (String.length arg) 36 then Some arg else None
    | None => None
    end
  else None.

(** Lines 228-242. [command] is [message.command], the command name followed
    by its arguments. The outcome is the caption (or the exception that
    escapes), the store calls made, and the collection afterwards. The reply
    that carries the caption (lines 244-254) is left out: it does not touch
    the store. *)
Definition start_handler (command : list string) (uid : Z) (now : N)
    (rand : N) (c : collection)
    : result caption * list store_call * collection :=
  match activation_argument command with
  | Some tok =>
      let '(ok, c') := activate_token uid tok now c in
      (Ok (if ok then TokenActivated else InvalidToken),
       [CallActivate uid tok], c')
  | None =>
      match has_valid_token uid now c with
      | (Raise e, c') => (Raise e, [CallHasValid uid], c')
      | (Ok false, c') =>
          let '(tok, c'') := generate_uuid uid rand c' in
          (Ok (GenerateYourToken tok),
           [CallHasValid uid; CallGenerate uid], c'')
      | (Ok true, c') => (Ok AlreadyActive, [CallHasValid uid], c')
      end
  end.

End TokenStore.

(** ** The link validator (lines 25-30 and 160-162) *)

Module Url.

Definition VALID_DOMAINS : list string :=
  [ "terabox.com"; "nephobox.com"; "4funbox.com"; "mirrobox.com";
    "momerybox.com"; "teraboxapp.com"; "1024tera.com";
    "terabox.app"; "gibibox.com"; "goaibox.com"; "terasharelink.com";
    "teraboxlink.com"; "terafileshare.com" ]%string.

(** [c in scheme_chars]: letters, digits and [+-.] *)
Definition is_scheme_char (a : ascii) : bool :=
  let n := N_of_ascii a in
  ((97 <=? n) && (n <=? 122) || (65 <=? n) && (n <=? 90)
   || (48 <=? n) && (n <=? 57) || (n =? 43) || (n =? 45) || (n =? 46))%N.

(** [c.isascii() and c.isalpha()] *)
Definition is_ascii_alpha (a : ascii) : bool :=
  let n := N_of_ascii a in
  ((97 <=? n) && (n <=? 122) || (65 <=? n) && (n <=? 90))%N.

(** [c in _WHATWG_C0_CONTROL_OR_SPACE]: code points 0 to 32 *)
Definition is_c0_control_or_space (a : ascii) : bool :=
  (N_of_ascii a <=? 32)%N.

Definition TAB : ascii := ascii_of_N 9.
Definition LF : ascii := ascii_of_N 10.
Definition CR : ascii := ascii_of_N 13.

(** [_splitnetloc(url, start)]: the earliest of the delimiters [/?#] at or
    after [start] ends the network location. *)
Definition splitnetloc (url : string) (start : nat) : string * string :=
  let delim :=
    fold_left
      (fun delim c =>
         match find_from c start url with
         | Some wdelim => Nat.min delim wdelim
         | None => delim
         end)
      ["/"%char; "?"%char; "#"%char] (String.length url) in
  (take (delim - start) (drop start url), drop delim url).

Section Urlparse.

(** [_check_bracketed_netloc(netloc)] validates a bracketed IPv6 or IPvFuture
    host through the [ipaddress] module; it is kept abstract: [true] when the
    call returns, [false] when it raises [ValueError]. *)
Variable check_bracketed_netloc : string -> bool.

(** [urlparse(url).netloc], following [urllib.parse.urlsplit] of CPython 3.11
    up to the point where the network location is fixed. [_checknetloc] is
    left out: it only raises for characters beyond code point 255. *)
Definition urlparse_netloc (url : string) : result string :=
  let url := lstrip is_c0_control_or_space url in
  let url := remove_char LF (remove_char CR (remove_char TAB url)) in
  let url :=
    match find ":"%char url with
    | Some (S i') =>
        let i := S i' in
        if all_chars is_ascii_alpha (take 1 url)
           && all_chars is_scheme_char (take i url)
        then drop (S i) url
        else url
    | _ => url
    end in
  if String.eqb (take 2 url) "//" then
    let '(netloc, _) := splitnetloc url 2 in
    let has_open := contains "["%char netloc in
    let has_close := contains "]"%char netloc in
    if (has_open && negb has_close) || (has_close && negb has_open) then
      Raise ValueError
    else if has_open && has_close && negb (check_bracketed_netloc netloc) then
      Raise ValueError
    else Ok netloc
  else Ok EmptyString.

(** Lines 160-162. *)
Definition is_valid_url (url : string) : result bool :=
  match urlparse_netloc url with
  | Ok netloc => Ok (existsb (fun domain => endswith netloc domain) VALID_DOMAINS)
  | Raise e => Raise e
  end.

End Urlparse.

End Url.

(** ** The upload pipeline (lines 306-419) *)

Module Pipeline.

Definition DEFAULT_SPLIT_SIZE : Z := 2 * 1024 ^ 3.
Definition VIP_SPLIT_SIZE : Z := 4 * 1024 ^ 3.

(** The arguments that vary in the [ffmpeg] command line of [split_video]:
    [-ss], [-i], [-t] and the output path. The two times are kept as floats,
    before [str] prints them. *)
Record split_cmd : Type := SplitCmd {
  cmd_ss : float;
  cmd_input : string;
  cmd_t : float;
  cmd_output : string
}.

(** A message of the chat, by its identifier. *)
Definition message : Type := Z.

(** The calls that leave the process, and the error log. *)
Inductive call : Type :=
  | FfprobeDuration (path : string)
  | FfprobeMetadata (path : string)
  | FfmpegCopy (cmd : split_cmd)
  | FfmpegThumbnail (path thumbnail : string)
  | SendVideo (path : string) (thumb : option string)
  | CopyMessage (path : string)
  | EditText (m : message)
  | DeleteMessage (m : message)
  | PathExists (path : string)
  | OsRemove (path : string)
  | LogError (what : string).

(** The world the pipeline acts on: the files on the local disk with their
    sizes in bytes, and the calls made so far, oldest first. Removing a file
    that is present succeeds; removing one that is absent raises. *)
Record world : Type := World {
  disk : gmap string Z;
  trace : list call
}.

(** What starting a subprocess and waiting for it gives:
    [create_subprocess_exec] raises, or the process runs to an exit status. *)
Inductive spawn (A : Type) : Type :=
  | SpawnError
  | Exited (returncode : Z) (out : A).

Arguments SpawnError {A}.
Arguments Exited {A} returncode out.

(** The behaviour of everything outside the process. A subprocess answers
    according to its command line, a Telegram call according to its target;
    [true] means that the call returns, [false] that it raises. *)
Record env : Type := Env {
  (** whether [user_client] is configured *)
  user_client : bool;
  (** [ffprobe ... format=duration]: its standard output through [float],
      [None] when [float] rejects it *)
  ffprobe_duration : string -> spawn (option float);
  (** the stream copy: the size of the file it leaves at the output path, if
      it leaves one *)
  ffmpeg_copy : split_cmd -> spawn (option Z);
  (** the thumbnail extraction, likewise *)
  ffmpeg_thumbnail : string -> spawn (option Z);
  (** [ffprobe ... stream=duration,width,height]: the three fields of its
      standard output through [float] and [int], [None] when the unpacking
      or a conversion raises *)
  ffprobe_metadata : string -> spawn (option (Z * Z * Z));
  send_video : string -> bool;
  copy_message : string -> bool;
  edit_text : message -> bool;
  delete_message : message -> bool
}.

(** [download.files[i].path] for each file of the download. *)
Record download : Type := Download { files : list string }.

(** Computations: a state-and-exception monad over the world. The world
    reached when an exception is raised is kept, as effects are not undone. *)
Definition M (A : Type) : Type := world -> result A * world.

Definition ret {A} (a : A) : M A := fun w => (Ok a, w).

Definition raise {A} (e : exn) : M A := fun w => (Raise e, w).

Definition bind {A B} (m : M A) (k : A -> M B) : M B :=
  fun w =>
    match m w with
    | (Ok a, w') => k a w'
    | (Raise e, w') => (Raise e, w')
    end.

Notation "x <- m ;; k" := (bind m (fun x => k))
  (at level 100, m at next level, right associativity).
Notation "m ;;; k" := (bind m (fun _ => k))
  (at level 100, right associativity).

(** [try: body / except Exception as e: handler(e)] *)
Definition try_except {A} (body : M A) (handler : exn -> M A) : M A :=
  fun w =>
    match body w with
    | (Ok a, w') => (Ok a, w')
    | (Raise e, w') => handler e w'
    end.

(** [try: body / finally: final]: [final] always runs; an exception of
    [final] replaces the outcome of [body]. *)
Definition try_finally {A} (body : M A) (final : M unit) : M A :=
  fun w =>
    let '(r, w') := body w in
    match final w' with
    | (Ok _, w'') => (r, w'')
    | (Raise e, w'') => (Raise e, w'')
    end.

(** [for x in l: body(x)] *)
Fixpoint for_each {A} (body : A -> M unit) (l : list A) : M unit :=
  match l with
  | [] => ret tt
  | x :: l' => body x ;;; for_each body l'
  end.

Definition log (c : call) : M unit :=
  fun w => (Ok tt, World (disk w) (trace w ++ [c])).

Definition logger_error (what : string) : M unit := log (LogError what).

(** [os.path.exists(path)] *)
Definition path_exists (path : string) : M bool :=
  log (PathExists path) ;;;
  fun w => (Ok (bool_decide (is_Some (disk w !! path))), w).

(** [os.path.getsize(path)] *)
Definition getsize (path : string) : M Z :=
  fun w =>
    match disk w !! path with
    | Some size => (Ok size, w)
    | None => (Raise FileNotFoundError, w)
    end.

(** [os.remove(path)] *)
Definition os_remove (path : string) : M unit :=
  log (OsRemove path) ;;;
  fun w =>
    match disk w !! path with
    | Some _ => (Ok tt, World (delete path (disk w)) (trace w))
    | None => (Raise FileNotFoundError, w)
    end.

(** A file appears on the disk (or is overwritten). *)
Definition write_file (path : string) (written : option Z) : M unit :=
  fun w =>
    match written with
    | Some size => (Ok tt, World (<[path := size]> (disk w)) (trace w))
    | None => (Ok tt, w)
    end.

(** Lines 406-410. *)
Definition safe_remove (path : string) : M unit :=
  try_except (os_remove path) (fun _ => logger_error "File removal failed").

Section WithEnv.

Variable E : env.

(** A Telegram call that either returns or raises. *)
Definition telegram (c : call) (returns : bool) : M unit :=
  log c ;;; if returns then ret tt else raise RPCError.

(** Lines 186-200. *)
Definition generate_thumbnail (video_path : string) : M (option string) :=
  let thumbnail_path := video_path +:+ ".jpg" in
  try_except
    (log (FfmpegThumbnail video_path thumbnail_path) ;;;
     match ffmpeg_thumbnail E video_path with
     | SpawnError => raise OSError
     | Exited _ written =>
         write_file thumbnail_path written ;;;
         present <- path_exists thumbnail_path ;;
         ret (if present : bool then Some thumbnail_path else None)
     end)
    (fun _ => logger_error "Thumbnail generation failed" ;;; ret None).

(** Lines 202-216: every failure is logged and replaced by the default
    metadata. *)
Definition get_video_metadata (file_path : string) : M (Z * Z * Z) :=
  try_except
    (log (FfprobeMetadata file_path) ;;;
     match ffprobe_metadata E file_path with
     | SpawnError => raise OSError
     | Exited _ (Some metadata) => ret metadata
     | Exited _ None => raise ValueError
     end)
    (fun _ => logger_error "Metadata extraction failed" ;;; ret (0, 1280, 720)).

(** Lines 331-361. The local [thumbnail] is bound before anything can raise:
    [generate_thumbnail] handles its own failures. *)
Definition upload_file (file_path : string) (status_message : message)
    : M unit :=
  thumbnail <- generate_thumbnail file_path ;;
  try_finally
    (try_except
       (get_video_metadata file_path ;;;
        telegram (SendVideo file_path thumbnail) (send_video E file_path) ;;;
        telegram (CopyMessage file_path) (copy_message E file_path))
       (fun _ =>
          logger_error "Upload failed" ;;;
          telegram (EditText status_message) (edit_text E status_message)))
    (match thumbnail with
     | Some t =>
         present <- path_exists t ;;
         if present : bool then os_remove t else ret tt
     | None => ret tt
     end).

(** One iteration of the loop of lines 390-399, for the index [i]. *)
Definition part_path (input_path : string) (i : nat) : string :=
  fst (splitext input_path) +:+ ".part"
    +:+ format_03d (N.of_nat (i + 1)) +:+ snd (splitext input_path).

Definition part_cmd (input_path : string) (duration_per_part : float)
    (i : nat) : split_cmd :=
  SplitCmd (PrimFloat.mul (float_of_int (Z.of_nat i)) duration_per_part)
    input_path duration_per_part (part_path input_path i).

(** [for i in range(i, i + n)] of lines 390-399, [split_files] being the
    list built so far. The exit status of the process is not read. *)
Fixpoint split_loop (input_path : string) (duration_per_part : float)
    (n i : nat) (split_files : list string) : M (list string) :=
  match n with
  | O => ret split_files
  | S n' =>
      let cmd := part_cmd input_path duration_per_part i in
      log (FfmpegCopy cmd) ;;;
      match ffmpeg_copy E cmd with
      | SpawnError => raise OSError
      | Exited _ written =>
          write_file (cmd_output cmd) written ;;;
          split_loop input_path duration_per_part n' (S i)
            (split_files ++ [cmd_output cmd])
      end
  end.

(** Lines 374-404. *)
Definition split_video (input_path : string) : M (list string) :=
  try_except
    (log (FfprobeDuration input_path) ;;;
     total_duration <-
       match ffprobe_duration E input_path with
       | SpawnError => raise OSError
       | Exited _ (Some d) => ret d
       | Exited _ None => raise ValueError
       end ;;
     file_size <- getsize input_path ;;
     let parts := ceil_truediv file_size DEFAULT_SPLIT_SIZE in
     duration_per_part <-
       (if parts =? 0 then raise ZeroDivisionError
        else ret (PrimFloat.div total_duration (float_of_int parts))) ;;
     split_loop input_path duration_per_part (Z.to_nat parts) 0 [])
    (fun e => logger_error "Video splitting failed" ;;; raise e).

(** Lines 316-323. [split_files] is assigned inside the [try] block: when
    [split_video] raises, the name is still unbound when the [finally] clause
    reads it, and the clause raises [UnboundLocalError] in turn. *)
Definition split_and_upload (file_path : string) (status_message : message)
    : M unit :=
  fun w =>
    match split_video file_path w with
    | (Ok split_files, w') =>
        try_finally
          (for_each (fun part => upload_file part status_message) split_files)
          (for_each safe_remove split_files) w'
    | (Raise _, w') => (Raise UnboundLocalError, w')
    end.

(** Lines 325-329. *)
Definition direct_upload (file_path : string) (status_message : message)
    : M unit :=
  try_finally (upload_file file_path status_message) (safe_remove file_path).

(** Line 309. *)
Definition split_size : Z :=
  if user_client E then VIP_SPLIT_SIZE else DEFAULT_SPLIT_SIZE.

(** Line 311. *)
Definition needs_split (file_size : Z) : bool := split_size <? file_size.

(** [download.files[0].path] *)
Definition first_file_path (d : download) : M string :=
  match files d with
  | path :: _ => ret path
  | [] => raise IndexError
  end.

(** Lines 306-314. *)
Definition handle_upload (d : download) (status_message : message) : M unit :=
  file_path <- first_file_path d ;;
  file_size <- getsize file_path ;;
  if needs_split file_size
  then split_and_upload file_path status_message
  else direct_upload file_path status_message.

(** Lines 412-419. *)
Definition cleanup (d : download) (status_message original_message : message)
    : M unit :=
  try_except
    (telegram (DeleteMessage status_message) (delete_message E status_message) ;;;
     telegram (DeleteMessage original_message)
       (delete_message E original_message) ;;;
     path <- first_file_path d ;;
     present <- path_exists path ;;
     if present : bool then
       path' <- first_file_path d ;;
       os_remove path'
     else ret tt)
    (fun _ => logger_error "Cleanup failed").

(** Lines 284-288 without the progress loop: the upload phase, then the
    guaranteed cleanup. *)
Definition upload_then_cleanup (d : download)
    (status_message original_message : message) : M unit :=
  try_finally (handle_upload d status_message)
    (cleanup d status_message original_message).

End WithEnv.

End Pipeline.

(** ** Concrete runs used as examples *)

Module Scenarios.

Import Pipeline.

Definition GiB : Z := 1024 ^ 3.

(** A fetched video of 5 GiB lasting 90 seconds, alone on the disk. *)
Definition video : string := "/d/v.mp4".
Definition fetched : world := World {[ video := 5 * GiB ]} [].
Definition the_download : download := Download [video].
Definition status_message : message := 1.
Definition original_message : message := 2.

(** Everything outside works: each stream copy leaves a part of 100 bytes. *)
Definition all_fine (vip : bool) : env :=
  Env vip
    (fun _ => Exited 0 (Some 90%float))
    (fun _ => Exited 0 (Some 100))
    (fun _ => Exited 0 (Some 1))
    (fun _ => Exited 0 (Some (90, 1280, 720)))
    (fun _ => true) (fun _ => true) (fun _ => true) (fun _ => true).

(** The stream copy of the second part runs but exits with status 1 and
    leaves no file. *)
Definition second_copy_exits_1 : env :=
  Env false
    (fun _ => Exited 0 (Some 90%float))
    (fun cmd =>
       if String.eqb (cmd_output cmd) "/d/v.part002.mp4"
       then Exited 1 None else Exited 0 (Some 100))
    (fun _ => Exited 0 (Some 1))
    (fun _ => Exited 0 (Some (90, 1280, 720)))
    (fun _ => true) (fun _ => true) (fun _ => true) (fun _ => true).

(** The process of the second stream copy cannot be started. *)
Definition second_copy_spawn_fails : env :=
  Env false
    (fun _ => Exited 0 (Some 90%float))
    (fun cmd =>
       if String.eqb (cmd_output cmd) "/d/v.part002.mp4"
       then SpawnError else Exited 0 (Some 100))
    (fun _ => Exited 0 (Some 1))
    (fun _ => Exited 0 (Some (90, 1280, 720)))
    (fun _ => true) (fun _ => true) (fun _ => true) (fun _ => true).

(** Telegram refuses to delete the status message. *)
Definition status_delete_fails : env :=
  Env false
    (fun _ => Exited 0 (Some 90%float))
    (fun _ => Exited 0 (Some 100))
    (fun _ => Exited 0 (Some 1))
    (fun _ => Exited 0 (Some (90, 1280, 720)))
    (fun _ => true) (fun _ => true) (fun _ => true)
    (fun m => negb (Z.eqb m status_message)).

End Scenarios.

(** ** The documents that the token functions write *)

Module TokenDocuments.

Import TokenStore.

(** The document written by [generate_uuid] (line 141). *)
Definition issued (uid : Z) (rand : N) : document :=
  Document uid (Some (uuid_str (uuid4 rand))) (Some "inactive") ExpiryNull.

(** The document left by [activate_token] at time [now] (lines 149-150),
    twelve hours being 43200000000 microseconds. *)
Definition activated (uid : Z) (tok : string) (now : N) : document :=
  Document uid (Some tok) (Some "active")
    (ExpiryAt (bson_datetime (now + 43200000000))).

End TokenDocuments.

(** ** More concrete runs *)

Module MoreScenarios.

Import Pipeline Scenarios.

(** An empty file where the fetched video should be. *)
Definition empty_video : world := World {[ video := 0 ]} [].

(** Sending the second part fails, and so does every edit of the status
    message. *)
Definition second_upload_fails : env :=
  Env false
    (fun _ => Exited 0 (Some 90%float))
    (fun _ => Exited 0 (Some 100))
    (fun _ => Exited 0 (Some 1))
    (fun _ => Exited 0 (Some (90, 1280, 720)))
    (fun path => negb (String.eqb path "/d/v.part002.mp4"))
    (fun _ => true) (fun _ => false) (fun _ => true).

(** The thumbnail process cannot be started. *)
Definition no_thumbnail_process : env :=
  Env false
    (fun _ => Exited 0 (Some 90%float))
    (fun _ => Exited 0 (Some 100))
    (fun _ => SpawnError)
    (fun _ => Exited 0 (Some (90, 1280, 720)))
    (fun _ => true) (fun _ => true) (fun _ => true) (fun _ => true).

End MoreScenarios.

(** ** Progress reporting (lines 113-118, 177-184 and 290-304) *)

Module Progress.

(** The number held by [size] in [format_size]: the [int] it starts as, or
    the float it becomes after [size /= 1024]. A float is kept as the exact
    quotient [m / 1024 ^ k]: the first division rounds the integer to a
    float ([round53]) and then divides by a power of two, which is exact, as
    are the later divisions. *)
Inductive number : Type :=
  | Int (z : Z)
  | Float (m : Z) (k : nat).

(** [float(z)] as an integer, or [None] when the conversion raises
    [OverflowError] (magnitude of 2^1024 or more after rounding). *)
Definition float_of_Z (z : Z) : option Z :=
  let magnitude := round53 (Z.abs z) in
  if 2 ^ 1024 <=? magnitude then None
  else Some (if z <? 0 then - magnitude else magnitude).

(** [size < 1024] *)
Definition lt_1024 (x : number) : bool :=
  match x with
  | Int z => z <? 1024
  | Float m k => m <? 1024 ^ Z.of_nat (S k)
  end.

(** [size / 1024]; [None] when an [int] is too large for the quotient to be
    a float ([OverflowError]). *)
Definition div_1024 (x : number) : option number :=
  match x with
  | Int z =>
      let magnitude := round53 (Z.abs z) in
      if 2 ^ 1034 <=? magnitude then None
      else Some (Float (if z <? 0 then - magnitude else magnitude) 1)
  | Float m k => Some (Float m (S k))
  end.

(** The integer nearest to [a / b] for [0 <= a] and [0 < b], ties going to
    the even one. *)
Definition round_half_even (a b : Z) : Z :=
  let q := a / b in
  let r := a mod b in
  if 2 * r <? b then q
  else if b <? 2 * r then q + 1
  else if Z.even q then q else q + 1.

(** ['0' * (2 - len(digits)) + digits] *)
Definition format_02d (n : Z) : string :=
  let digits := NilEmpty.string_of_uint (N.to_uint (Z.to_N n)) in
  zeros (2 - String.length digits) +:+ digits.

(** A number of hundredths [h >= 0] written with two decimals. *)
Definition decimal_2 (h : Z) : string :=
  NilEmpty.string_of_uint (N.to_uint (Z.to_N (h / 100)))
    +:+ "." +:+ format_02d (h mod 100).

(** [f"{x:.2f}"] for the float [m / 1024 ^ k]: the decimal with two
    fractional digits nearest to the exact value, ties to even. *)
Definition format_2f_float (m : Z) (k : nat) : string :=
  (if m <? 0 then "-" else "")
    +:+ decimal_2 (round_half_even (100 * Z.abs m) (1024 ^ Z.of_nat k)).

(** [f"{size:.2f}"]; an [int] is converted to a float first. *)
Definition format_2f (x : number) : option string :=
  match x with
  | Int z => (fun m => format_2f_float m 0) <$> float_of_Z z
  | Float m k => Some (format_2f_float m k)
  end.

(** The loop of lines 114-118 over the units that are left. *)
Fixpoint format_size_loop (units : list string) (size : number)
    : option string :=
  match units with
  | [] => (fun text => text +:+ " TB") <$> format_2f size
  | unit :: units' =>
      if lt_1024 size
      then (fun text => text +:+ " " +:+ unit) <$> format_2f size
      else match div_1024 size with
           | Some size' => format_size_loop units' size'
           | None => None
           end
  end.

(** Lines 113-118; [None] stands for [OverflowError]. *)
Definition format_size (size : Z) : option string :=
  format_size_loop ["B"; "KB"; "MB"; "GB"]%string (Int size).

(** How one call of [message.edit_text] ends: it returns, or Telegram asks to
    wait ([FloodWait] with the number of seconds), or it fails otherwise. *)
Inductive edit_outcome : Type :=
  | EditReturns
  | EditFloodWait (value : Z)
  | EditRaises.

(** How one call of [download.update()] ends, with the flag
    [download.is_complete] that it leaves. *)
Inductive poll : Type :=
  | Updated (is_complete : bool)
  | UpdateRaises (e : exn).

(** What the coroutine does, in order. *)
Inductive step : Type :=
  | DoEdit
  | DoSleep (seconds : Z)
  | DoUpdate
  | DoLogError.

(** How far a run gets on a finite script of outcomes: it returns, it
    raises, or the script ends while the coroutine is still running. *)
Inductive ending : Type :=
  | Returned
  | Raised (e : exn)
  | StillRunning.

Definition UPDATE_INTERVAL : Z := 15.

(** Lines 177-184. [edits] tells how the successive calls of [edit_text]
    end; the result is what was done and the outcomes left unused, or [None]
    for them when the script ends during a retry. The function has no exit
    by exception: [FloodWait] is handled by a retry and everything else by
    the log. The recursion limit of the interpreter is not modelled. *)
Fixpoint safe_edit (edits : list edit_outcome)
    : list step * option (list edit_outcome) :=
  match edits with
  | [] => ([], None)
  | EditReturns :: edits' => ([DoEdit], Some edits')
  | EditFloodWait value :: edits' =>
      let '(steps, unused) := safe_edit edits' in
      (DoEdit :: DoSleep value :: steps, unused)
  | EditRaises :: edits' => ([DoEdit; DoLogError], Some edits')
  end.

(** Lines 290-304. [is_complete] is the flag when the loop test is reached;
    [polls] and [edits] tell how the successive updates and edits end.
    Building the progress text has no effect and is left out. *)
Fixpoint track_download_progress (is_complete : bool) (polls : list poll)
    (edits : list edit_outcome) : list step * ending :=
  match polls with
  | [] =>
      if is_complete then ([], Returned)
      else ([DoSleep UPDATE_INTERVAL], StillRunning)
  | UpdateRaises e :: _ =>
      if is_complete then ([], Returned)
      else ([DoSleep UPDATE_INTERVAL; DoUpdate], Raised e)
  | Updated is_complete' :: polls' =>
      if is_complete then ([], Returned)
      else
        match safe_edit edits with
        | (steps, None) =>
            (DoSleep UPDATE_INTERVAL :: DoUpdate :: steps, StillRunning)
        | (steps, Some edits') =>
            let '(steps', e) :=
              track_download_progress is_complete' polls' edits' in
            (DoSleep UPDATE_INTERVAL :: DoUpdate :: steps ++ steps', e)
        end
  end.

End Progress.

(** ** The link scan of the message handler (lines 267-269) *)

Module Handlers.

Import Url.

(** [c.isspace()] for a character below 256: the separators of
    [str.split()]. *)
Definition is_space (a : ascii) : bool :=
  let n := N_of_ascii a in
  ((9 <=? n) && (n <=? 13) || (28 <=? n) && (n <=? 32)
   || (n =? 133) || (n =? 160))%N.

(** The word that starts [s], if [s] does not start with a separator, and
    the words after it. *)
Fixpoint split_aux (s : string) : string * list string :=
  match s with
  | EmptyString => (EmptyString, [])
  | String a s' =>
      let '(word, words) := split_aux s' in
      if is_space a then
        (EmptyString,
         match word with EmptyString => words | _ => word :: words end)
      else (String a word, words)
  end.

(** [text.split()]: the maximal runs of characters that are not
    separators. *)
Definition split (text : string) : list string :=
  let '(word, words) := split_aux text in
  match word with EmptyString => words | _ => word :: words end.

Section Scan.

Variable check_bracketed_netloc : string -> bool.

(** [next((word for word in words if is_valid_url(word)), None)]: the
    generator stops at the first accepted word, and an exception of the
    validator leaves it. *)
Fixpoint first_valid_url (words : list string) : result (option string) :=
  match words with
  | [] => Ok None
  | word :: words' =>
      match is_valid_url check_bracketed_netloc word with
      | Ok true => Ok (Some word)
      | Ok false => first_valid_url words'
      | Raise e => Raise e
      end
  end.

(** Line 267. *)
Definition find_link (text : string) : result (option string) :=
  first_valid_url (split text).

End Scan.

End Handlers.

(** ** Reading a trace *)

Module Traces.

Import Pipeline.

(** The calls of a trace that go to Telegram. *)
Definition is_telegram (c : call) : bool :=
  match c with
  | SendVideo _ _ | CopyMessage _ | EditText _ | DeleteMessage _ => true
  | _ => false
  end.

Definition telegram_calls (t : list call) : list call :=
  List.filter is_telegram t.

(** The paths of the videos that a trace sends, in order. *)
Definition sent_paths (t : list call) : list string :=
  omap (fun c => match c with SendVideo path _ => Some path | _ => None end) t.

End Traces.

(** * Properties *)

(** ** Strings and formatting *)

Module PyFacts.

Lemma length_app (s t : string) :
  String.length (s +:+ t) = (String.length s + String.length t)%nat.
Proof. induction s as [|a s IH]; simpl; [reflexivity | now rewrite IH]. Qed.

Lemma length_take (n : nat) (s : string) :
  String.length (take n s) = Nat.min n (String.length s).
Proof.
  revert s; induction n as [|n IH]; intros [|a s]; simpl; try reflexivity.
  now rewrite IH.
Qed.

Lemma length_drop (n : nat) (s : string) :
  String.length (drop n s) = (String.length s - n)%nat.
Proof.
  revert s; induction n as [|n IH]; intros [|a s]; simpl; try reflexivity.
  apply IH.
Qed.

Lemma length_hex_fixed (width : nat) (n : N) :
  String.length (hex_fixed width n) = width.
Proof.
  revert n; induction width as [|w IH]; intros n; simpl; [reflexivity|].
  rewrite length_app, IH; simpl; lia.
Qed.

(** An issued token has the 36 characters of the textual form of a UUID. *)
Lemma length_uuid_str (int : N) : String.length (uuid_str int) = 36%nat.
Proof.
  unfold uuid_str.
  repeat rewrite ?length_app, ?length_take, ?length_drop, ?length_hex_fixed.
  reflexivity.
Qed.

Lemma app_nil_l (s : string) : ""%string +:+ s = s.
Proof. reflexivity. Qed.

Lemma app_cons (a : ascii) (s t : string) :
  String a s +:+ t = String a (s +:+ t).
Proof. reflexivity. Qed.

(** [endswith] is the suffix relation. *)
Lemma endswith_spec (s suffix : string) :
  endswith s suffix = true <-> exists p, s = p +:+ suffix.
Proof.
  induction s as [|a s IH]; cbn [endswith].
  - destruct (String.eqb_spec "" suffix) as [<-|Hne].
    + split; [exists ""%string; reflexivity | reflexivity].
    + split; [discriminate|].
      intros [[|b p] Hp]; [rewrite app_nil_l in Hp; congruence|].
      rewrite app_cons in Hp. discriminate.
  - destruct (String.eqb_spec (String a s) suffix) as [<-|Hne].
    + split; [exists ""%string; reflexivity | reflexivity].
    + rewrite IH. split.
      * intros [p ->]. exists (String a p). reflexivity.
      * intros [[|b p] Hp]; [rewrite app_nil_l in Hp; congruence|].
        rewrite app_cons in Hp. injection Hp as _ ->. now exists p.
Qed.

Lemma length_zeros (n : nat) : String.length (zeros n) = n.
Proof. induction n as [|n IH]; simpl; [reflexivity | now rewrite IH]. Qed.

(** The suffix has at least three characters. *)
Lemma length_format_03d_ge (n : N) : (3 <= String.length (format_03d n))%nat.
Proof. unfold format_03d. rewrite length_app, length_zeros. lia. Qed.

(** Up to 999 the suffix has exactly three characters. *)
Lemma length_format_03d_small (n : N) :
  (n < 1000)%N -> String.length (format_03d n) = 3%nat.
Proof.
  intros Hn.
  assert (Hall : forallb (fun k => Nat.eqb (String.length (format_03d (N.of_nat k))) 3)
                   (seq 0 1000) = true) by (vm_compute; reflexivity).
  rewrite forallb_forall in Hall.
  specialize (Hall (N.to_nat n)). rewrite N2Nat.id in Hall.
  apply Nat.eqb_eq, Hall, in_seq. lia.
Qed.

Lemma uint_of_string_zeros (k : nat) (s : string) (d : Decimal.uint) :
  NilEmpty.uint_of_string s = Some d ->
  exists d', NilEmpty.uint_of_string (zeros k +:+ s) = Some d'
    /\ N.of_uint d' = N.of_uint d.
Proof.
  intros Hs. induction k as [|k (d' & Hd' & Hval)].
  - exists d. now split.
  - exists (Decimal.D0 d'). split; [|exact Hval].
    cbn [zeros]. rewrite app_cons. cbn [NilEmpty.uint_of_string].
    now rewrite Hd'.
Qed.

(** The suffix reads back as the number it was made from: suffixes of
    different numbers differ, and they grow with the number. *)
Lemma int_of_digits_format_03d (n : N) : int_of_digits (format_03d n) = Some n.
Proof.
  unfold int_of_digits, format_03d.
  destruct (uint_of_string_zeros
              (3 - String.length (NilEmpty.string_of_uint (N.to_uint n)))
              _ _ (NilEmpty.usu (N.to_uint n))) as (d' & -> & Hval).
  simpl. now rewrite Hval, DecimalN.Unsigned.of_to.
Qed.

Lemma contains_app (c : ascii) (s t : string) :
  contains c (s +:+ t) = contains c s || contains c t.
Proof.
  induction s as [|a s IH]; [reflexivity|].
  rewrite app_cons. cbn [contains]. now destruct (Ascii.eqb a c).
Qed.

Lemma all_chars_not_contains (p : ascii -> bool) (s : string) (c : ascii) :
  all_chars p s = true -> p c = false -> contains c s = false.
Proof.
  intros Hall Hc. induction s as [|a s IH]; [reflexivity|].
  cbn [all_chars contains] in *. apply andb_true_iff in Hall as [Ha Hs].
  destruct (Ascii.eqb_spec a c) as [->|_]; [congruence | now apply IH].
Qed.

Lemma all_chars_app (p : ascii -> bool) (s t : string) :
  all_chars p (s +:+ t) = all_chars p s && all_chars p t.
Proof.
  induction s as [|a s IH]; [reflexivity|].
  rewrite app_cons. cbn [all_chars]. now rewrite IH, andb_assoc.
Qed.

Lemma remove_char_id (c : ascii) (s : string) :
  contains c s = false -> remove_char c s = s.
Proof.
  induction s as [|a s IH]; [reflexivity|]. cbn [contains remove_char].
  destruct (Ascii.eqb a c); [discriminate|]. intros H. now rewrite IH.
Qed.

Lemma remove_char_app (c : ascii) (s t : string) :
  remove_char c (s +:+ t) = remove_char c s +:+ remove_char c t.
Proof.
  induction s as [|a s IH]; [reflexivity|].
  rewrite app_cons. cbn [remove_char].
  destruct (Ascii.eqb a c); [exact IH | now rewrite app_cons, IH].
Qed.

Lemma contains_remove_char (c c' : ascii) (s : string) :
  contains c s = false -> contains c (remove_char c' s) = false.
Proof.
  induction s as [|a s IH]; [reflexivity|]. cbn [contains remove_char].
  destruct (Ascii.eqb_spec a c) as [->|Hne]; [discriminate|]. intros H.
  destruct (Ascii.eqb a c'); [now apply IH|].
  cbn [contains]. destruct (Ascii.eqb_spec a c); [contradiction | now apply IH].
Qed.

Lemma contains_lstrip (c : ascii) (p : ascii -> bool) (s : string) :
  contains c s = false -> contains c (lstrip p s) = false.
Proof.
  induction s as [|a s IH]; [reflexivity|]. cbn [lstrip].
  destruct (p a); [|auto]. cbn [contains].
  destruct (Ascii.eqb a c); [discriminate | exact IH].
Qed.

Lemma find_not_contains (c : ascii) (s : string) :
  contains c s = false -> find c s = None.
Proof.
  induction s as [|a s IH]; [reflexivity|]. cbn [contains find].
  destruct (Ascii.eqb a c); [discriminate|]. intros H. now rewrite IH.
Qed.

(** [find] skips a prefix that does not hold the character. *)
Lemma find_app_skip (c : ascii) (s t : string) :
  contains c s = false ->
  find c (s +:+ t) = (fun i => (String.length s + i)%nat) <$> find c t.
Proof.
  induction s as [|a s IH]; intros Hs.
  - rewrite app_nil_l. now destruct (find c t).
  - cbn [contains] in Hs. rewrite app_cons. cbn [find].
    destruct (Ascii.eqb a c); [discriminate|].
    rewrite (IH Hs). now destruct (find c t).
Qed.

Lemma take_app_length (s t : string) : take (String.length s) (s +:+ t) = s.
Proof.
  induction s as [|a s IH]; [now destruct t|].
  rewrite app_cons. cbn [String.length take]. now rewrite IH.
Qed.

Lemma drop_app_length (s t : string) : drop (String.length s) (s +:+ t) = t.
Proof. induction s as [|a s IH]; [reflexivity | exact IH]. Qed.

End PyFacts.

(** ** The token store *)

Module TokenFacts.

Import TokenStore.

Lemma timedelta_12_hours :
  timedelta_hours TOKEN_EXPIRY_HOURS = 43200000000%N.
Proof. reflexivity. Qed.

(** [update_one] either finds nothing and leaves the collection as it is, or
    rewrites the first matching document in place. *)
Lemma update_one_cases (query : document -> bool) (set : document -> document)
    (c : collection) :
  (Forall (fun d => query d = false) c
   /\ update_one query set c = (UpdateResult 0 0, c))
  \/ (exists i d,
        c !! i = Some d /\ query d = true
        /\ update_one query set c
           = (UpdateResult 1 (if decide (set d = d) then 0 else 1),
              <[i := set d]> c)).
Proof.
  induction c as [|d c IH]; simpl.
  - left. split; [constructor | reflexivity].
  - destruct (query d) eqn:Hq.
    + right. exists 0%nat, d. repeat split; assumption.
    + destruct IH as [[Hall Heq] | (i & d' & Hi & Hq' & Heq)]; rewrite Heq.
      * left. split; [constructor; assumption | reflexivity].
      * right. exists (S i), d'. repeat split; assumption.
Qed.

(** A property of documents that the rewrite preserves on the documents it
    is applied to survives [update_one]. *)
Lemma update_one_Forall (P : document -> Prop) (query : document -> bool)
    (set : document -> document) (c : collection) :
  (forall d, P d -> query d = true -> P (set d)) ->
  Forall P c -> Forall P (update_one query set c).2.
Proof.
  intros Hset Hc. induction Hc as [|d c Hd Hc IH]; simpl; [constructor|].
  destruct (query d) eqn:Hq; simpl.
  - constructor; [apply Hset; assumption | assumption].
  - destruct (update_one query set c) as [r c'']; simpl in *.
    constructor; assumption.
Qed.

(** A rewrite that keeps [user_id] keeps the list of user identities. *)
Lemma update_one_user_ids (query : document -> bool)
    (set : document -> document) (c : collection) :
  (forall d, user_id (set d) = user_id d) ->
  user_id <$> (update_one query set c).2 = user_id <$> c.
Proof.
  intros Hset. induction c as [|d c IH]; simpl; [reflexivity|].
  destruct (query d); simpl.
  - now rewrite Hset.
  - destruct (update_one query set c) as [r c'']; simpl in *.
    f_equal. exact IH.
Qed.

Lemma find_one_Some (query : document -> bool) (c : collection) (d : document) :
  find_one query c = Some d -> d ∈ c /\ query d = true.
Proof.
  induction c as [|d' c IH]; simpl; [discriminate|].
  destruct (query d') eqn:Hq.
  - intros [= ->]. split; [left | assumption].
  - intros H. destruct (IH H). split; [right|]; assumption.
Qed.

(** With at most one document per user, [find_one] by user finds the
    document of that user wherever it stands. *)
Lemma find_one_by_user_unique (uid : Z) (c : collection) (d : document) :
  NoDup (user_id <$> c) -> d ∈ c -> user_id d = uid ->
  find_one (by_user uid) c = Some d.
Proof.
  intros Hnd Hin Hu. induction c as [|d' c IH]; [inversion Hin|].
  simpl in *. apply NoDup_cons in Hnd as [Hnotin Hnd].
  unfold by_user at 1. destruct (Z.eqb_spec (user_id d') uid) as [He|Hne].
  - apply elem_of_cons in Hin as [->|Hin]; [reflexivity|].
    exfalso. apply Hnotin. rewrite He, <- Hu.
    now apply list_elem_of_fmap_2.
  - apply elem_of_cons in Hin as [->|Hin]; [congruence|]. now apply IH.
Qed.

Lemma by_user_and_token_true (uid : Z) (tok : string) (d : document) :
  by_user_and_token uid tok d = true <-> user_id d = uid /\ token d = Some tok.
Proof.
  unfold by_user_and_token.
  rewrite andb_true_iff, Z.eqb_eq, bool_decide_eq_true. reflexivity.
Qed.

(** What the store drops from a datetime is less than a millisecond. *)
Lemma bson_datetime_bounds (t : N) :
  (bson_datetime t <= t < bson_datetime t + 1000)%N.
Proof.
  unfold bson_datetime.
  pose proof (N.div_mod t 1000 ltac:(discriminate)) as Hdm.
  pose proof (N.mod_lt t 1000 ltac:(discriminate)) as Hlt.
  set (q := (t / 1000)%N) in *. set (r := (t mod 1000)%N) in *. lia.
Qed.

(** Twelve hours are a whole number of milliseconds: cutting the expiry to
    the millisecond is cutting the activation time to the millisecond. *)
Lemma bson_datetime_expiry (now : N) :
  bson_datetime (now + 43200000000) = (bson_datetime now + 43200000000)%N.
Proof.
  unfold bson_datetime.
  change 43200000000%N with (43200000 * 1000)%N.
  rewrite N.div_add by discriminate. lia.
Qed.

(** C4, as stated, fails on the expiry: an activation at 5 microseconds
    leaves the expiry at twelve hours sharp, which is not now + 12 hours,
    because the store keeps whole milliseconds. *)
Lemma activate_token_counterexample :
  activate_token 7 "t" 5 [Document 7 (Some "t") (Some "inactive") ExpiryNull]
  = (true, [Document 7 (Some "t") (Some "active") (ExpiryAt 43200000000)])
  /\ 43200000000%N <> (5 + timedelta_hours TOKEN_EXPIRY_HOURS)%N.
Proof. split; [reflexivity | discriminate]. Qed.

(** C4, amended. Activation returns true only if a stored document carries
    both the user identity and the token value presented; it then rewrites
    that document to status active with, as expiry, now + 12 hours cut to
    the whole millisecond that the store keeps: an instant at most 12 hours
    after now and less than a millisecond short of it. A call that returns
    false leaves the collection as it was, and a call for which no document
    of that user holds the presented token (a stale token, a mismatched one,
    or one issued to another user) returns false. Activation does succeed
    when the user has a document with the presented token and no such
    document is active yet. The function is total: no outcome is an
    error. *)
Theorem activate_token_spec (uid : Z) (tok : string) (now : N)
    (c c' : collection) (ok : bool) :
  activate_token uid tok now c = (ok, c') ->
  (ok = true ->
     exists i d,
       c !! i = Some d /\ user_id d = uid /\ token d = Some tok
       /\ c' = <[i := Document uid (Some tok) (Some "active")
                        (ExpiryAt (bson_datetime (now + 43200000000)))]> c)
  /\ (bson_datetime (now + 43200000000) <= now + 43200000000
       < bson_datetime (now + 43200000000) + 1000)%N
  /\ (ok = false -> c' = c)
  /\ ((forall d, d ∈ c -> user_id d = uid -> token d <> Some tok) ->
      ok = false /\ c' = c)
  /\ ((exists d, d ∈ c /\ user_id d = uid /\ token d = Some tok) ->
      (forall d, d ∈ c -> user_id d = uid -> token d = Some tok ->
         token_status d <> Some "active"%string) ->
      ok = true).
Proof.
  unfold activate_token. rewrite timedelta_12_hours.
  set (set := fun d => Document _ _ _ _).
  pose proof (bson_datetime_bounds (now + 43200000000)) as Hb.
  destruct (update_one_cases (by_user_and_token uid tok) set c)
    as [[Hall Heq] | (i & d & Hi & Hq & Heq)]; rewrite Heq; intros [= <- <-].
  - split; [discriminate|]. split; [exact Hb|]. split; [reflexivity|].
    split; [now split|].
    intros (d & Hd & Hu & Ht) _. exfalso.
    rewrite Forall_forall in Hall. specialize (Hall d Hd).
    assert (Hq : by_user_and_token uid tok d = true)
      by (apply by_user_and_token_true; now split).
    congruence.
  - apply by_user_and_token_true in Hq as [Hu Ht].
    assert (Hd : d ∈ c) by (eapply list_elem_of_lookup_2; eassumption).
    destruct (decide (set d = d)) as [Hsame | Hdiff]; simpl.
    + rewrite Hsame, (list_insert_id _ _ _ Hi).
      split; [discriminate|]. split; [exact Hb|]. split; [reflexivity|].
      split.
      * intros Hnone. exfalso. now apply (Hnone d).
      * intros _ Hinactive. exfalso. apply (Hinactive d Hd Hu Ht).
        now rewrite <- Hsame.
    + split; [|split; [|split; [|split]]].
      * intros _. exists i, d. repeat split; try assumption.
        unfold set. now rewrite Hu, Ht.
      * exact Hb.
      * discriminate.
      * intros Hnone. exfalso. now apply (Hnone d).
      * reflexivity.
Qed.

(** An instance: user 7 activates, 1005 microseconds after the origin of
    time, the token that the store holds for them. *)
Lemma activate_token_spec_witness :
  exists i d,
    [Document 7 (Some "t") (Some "inactive") ExpiryNull] !! i = Some d
    /\ user_id d = 7 /\ token d = Some "t"%string
    /\ [Document 7 (Some "t") (Some "active") (ExpiryAt 43200001000)]
       = <[i := Document 7 (Some "t") (Some "active")
                  (ExpiryAt (bson_datetime (1005 + 43200000000)))]>
           [Document 7 (Some "t") (Some "inactive") ExpiryNull].
Proof.
  refine (proj1 (activate_token_spec 7 "t" 1005
            [Document 7 (Some "t") (Some "inactive") ExpiryNull]
            [Document 7 (Some "t") (Some "active") (ExpiryAt 43200001000)]
            true _) _); reflexivity.
Defined.

(** The token of user 7 presented by user 8 activates nothing. *)
Example activate_token_other_user :
  activate_token 8 "t" 5
    [Document 7 (Some "t") (Some "inactive") ExpiryNull;
     Document 8 (Some "u") (Some "inactive") ExpiryNull]
  = (false, [Document 7 (Some "t") (Some "inactive") ExpiryNull;
             Document 8 (Some "u") (Some "inactive") ExpiryNull]).
Proof. reflexivity. Qed.

(** C5. With at most one document per user (the invariant of the data
    model), the validity check returns true exactly when a document of the
    user has status active and an expiry strictly after now; it returns
    false for an active document whose expiry is not after now; and it hands
    the collection back unchanged. *)
Theorem has_valid_token_spec (uid : Z) (now : N) (c : collection) :
  NoDup (user_id <$> c) ->
  ((has_valid_token uid now c).1 = Ok true <->
     exists d t, d ∈ c /\ user_id d = uid
       /\ token_status d = Some "active"%string
       /\ token_expiry d = ExpiryAt t /\ (now < t)%N)
  /\ (forall d t, d ∈ c -> user_id d = uid ->
        token_status d = Some "active"%string ->
        token_expiry d = ExpiryAt t -> (t <= now)%N ->
        (has_valid_token uid now c).1 = Ok false)
  /\ (has_valid_token uid now c).2 = c.
Proof.
  intros Hnd. split; [|split].
  - split.
    + unfold has_valid_token.
      destruct (find_one (by_user uid) c) as [d|] eqn:Hf; [|discriminate].
      apply find_one_Some in Hf as [Hin Hq].
      apply Z.eqb_eq in Hq.
      case_bool_decide as Hs; [|discriminate].
      destruct (token_expiry d) as [| |t] eqn:He; simpl; try discriminate.
      * intros [= Hlt]. apply N.ltb_lt in Hlt. unfold datetime_min in Hlt. lia.
      * intros [= Hlt]. apply N.ltb_lt in Hlt. now exists d, t.
    + intros (d & t & Hin & Hu & Hs & He & Hlt).
      unfold has_valid_token.
      rewrite (find_one_by_user_unique uid c d Hnd Hin Hu).
      rewrite bool_decide_eq_true_2 by assumption. rewrite He. simpl.
      apply N.ltb_lt in Hlt. now rewrite Hlt.
  - intros d t Hin Hu Hs He Hle. unfold has_valid_token.
    rewrite (find_one_by_user_unique uid c d Hnd Hin Hu).
    rewrite bool_decide_eq_true_2 by assumption. rewrite He. simpl.
    apply N.ltb_ge in Hle. now rewrite Hle.
  - unfold has_valid_token.
    destruct (find_one (by_user uid) c) as [d|]; [|reflexivity].
    case_bool_decide; [|reflexivity].
    destruct (token_expiry d); reflexivity.
Qed.

(** An instance: an active token of user 7 that expired at time 10 is
    refused at time 11, and the store is not touched. *)
Lemma has_valid_token_spec_witness :
  (has_valid_token 7 11
     [Document 7 (Some "t") (Some "active") (ExpiryAt 10)]).1 = Ok false
  /\ (has_valid_token 7 11
        [Document 7 (Some "t") (Some "active") (ExpiryAt 10)]).2
     = [Document 7 (Some "t") (Some "active") (ExpiryAt 10)].
Proof.
  assert (Hnd : NoDup (user_id <$>
            [Document 7 (Some "t") (Some "active") (ExpiryAt 10)])).
  { simpl. apply NoDup_singleton. }
  destruct (has_valid_token_spec 7 11 _ Hnd) as (_ & Hpast & Hsame).
  split; [|exact Hsame].
  apply (Hpast (Document 7 (Some "t") (Some "active") (ExpiryAt 10)) 10%N);
    [left | reflexivity | reflexivity | reflexivity | lia].
Defined.

(** What the three token functions do to the collection. *)
Lemma generate_uuid_collection (uid : Z) (rand : N) (c : collection) :
  let set := fun d =>
    Document (user_id d) (Some (uuid_str (uuid4 rand))) (Some "inactive")
      ExpiryNull in
  (Forall (fun d => by_user uid d = false) c
   /\ (generate_uuid uid rand c).2
      = c ++ [set (Document uid None None ExpiryAbsent)])
  \/ ((exists d, d ∈ c /\ by_user uid d = true)
      /\ (generate_uuid uid rand c).2 = (update_one (by_user uid) set c).2).
Proof.
  intros set. unfold generate_uuid, update_one_upsert. fold set.
  destruct (update_one_cases (by_user uid) set c)
    as [[Hall Heq] | (i & d & Hi & Hq & Heq)]; rewrite Heq; simpl.
  - left. split; [assumption | reflexivity].
  - right. split; [|reflexivity].
    exists d. split; [eapply list_elem_of_lookup_2; eassumption | assumption].
Qed.

Lemma activate_token_collection (uid : Z) (tok : string) (now : N)
    (c : collection) :
  (activate_token uid tok now c).2
  = (update_one (by_user_and_token uid tok)
       (fun d => Document (user_id d) (token d) (Some "active")
                   (ExpiryAt
                      (bson_datetime
                         (now + timedelta_hours TOKEN_EXPIRY_HOURS))))
       c).2.
Proof.
  unfold activate_token. now destruct (update_one _ _ c).
Qed.

Lemma has_valid_token_collection (uid : Z) (now : N) (c : collection) :
  (has_valid_token uid now c).2 = c.
Proof.
  unfold has_valid_token.
  destruct (find_one (by_user uid) c) as [d|]; [|reflexivity].
  case_bool_decide; [|reflexivity].
  destruct (token_expiry d); reflexivity.
Qed.

(** The token functions keep at most one document per user. *)
Lemma reachable_NoDup (c : collection) :
  reachable c -> NoDup (user_id <$> c).
Proof.
  induction 1 as [|c uid rand _ IH|c uid tok now _ IH|c uid now _ IH].
  - constructor.
  - destruct (generate_uuid_collection uid rand c)
      as [[Hall ->] | [_ ->]].
    + rewrite fmap_app. apply NoDup_app. split; [assumption|]. split.
      * intros x Hx Hx'. apply list_elem_of_singleton in Hx'. simpl in Hx'.
        apply list_elem_of_fmap in Hx as (d & -> & Hd).
        rewrite Forall_forall in Hall. specialize (Hall d Hd).
        unfold by_user in Hall. apply Z.eqb_neq in Hall. congruence.
      * apply NoDup_singleton.
    + now rewrite update_one_user_ids.
  - rewrite activate_token_collection. now rewrite update_one_user_ids.
  - now rewrite has_valid_token_collection.
Qed.

Lemma reachable_Forall_active_has_expiry (c : collection) :
  reachable c -> Forall active_has_expiry c.
Proof.
  induction 1 as [|c uid rand _ IH|c uid tok now _ IH|c uid now _ IH].
  - constructor.
  - destruct (generate_uuid_collection uid rand c)
      as [[_ ->] | [_ ->]].
    + apply Forall_app. split; [assumption|].
      constructor; [|constructor]. intros Hs. discriminate.
    + apply update_one_Forall; [|assumption].
      intros d _ _ Hs. discriminate.
  - rewrite activate_token_collection.
    apply update_one_Forall; [|assumption].
    intros d _ _ _. eexists. reflexivity.
  - now rewrite has_valid_token_collection.
Qed.

(** C9. In every collection reachable through issue, activate and validate,
    an active document holds a datetime as its expiry (never null, never
    missing); hence the validity check compares the current time with a
    datetime and returns a boolean, for every user and every time. *)
Theorem reachable_active_expiry (c : collection) :
  reachable c ->
  (forall d, d ∈ c -> token_status d = Some "active"%string ->
     exists t, token_expiry d = ExpiryAt t)
  /\ (forall uid now, exists b, has_valid_token uid now c = (Ok b, c)).
Proof.
  intros Hr. pose proof (reachable_Forall_active_has_expiry c Hr) as Hall.
  rewrite Forall_forall in Hall. split.
  - intros d Hd Hs. now apply (Hall d Hd).
  - intros uid now. unfold has_valid_token.
    destruct (find_one (by_user uid) c) as [d|] eqn:Hf; [|now exists false].
    apply find_one_Some in Hf as [Hd _].
    case_bool_decide as Hs; [|now exists false].
    destruct (Hall d Hd Hs) as [t ->]. now eexists.
Qed.

(** An instance: a token issued to user 7 and then activated at time 5. *)
Lemma reachable_active_expiry_witness :
  exists b,
    has_valid_token 7 6
      (activate_token 7 (uuid_str (uuid4 0)) 5 (generate_uuid 7 0 []).2).2
    = (Ok b,
       (activate_token 7 (uuid_str (uuid4 0)) 5 (generate_uuid 7 0 []).2).2).
Proof.
  apply (reachable_active_expiry
           (activate_token 7 (uuid_str (uuid4 0)) 5 (generate_uuid 7 0 []).2).2).
  apply reachable_activate, reachable_issue, reachable_empty.
Defined.

Lemma activation_argument_Some (command : list string) (arg : string) :
  activation_argument command = Some arg <->
  command !! 1%nat = Some arg /\ String.length arg = 36%nat.
Proof.
  unfold activation_argument.
  destruct (Nat.ltb_spec 1 (length command)) as [Hlt|Hge].
  - destruct (command !! 1%nat) as [a|] eqn:Ha.
    + destruct (Nat.eqb_spec (String.length a) 36) as [Hl|Hl].
      * split; [intros [= ->]; now split | intros [[= ->] _]; reflexivity].
      * split; [discriminate | intros [[= ->] ?]; contradiction].
    + split; [discriminate | intros [? _]; discriminate].
  - rewrite (lookup_ge_None_2 command 1) by lia.
    split; [discriminate | intros [? _]; discriminate].
Qed.

(** C10. The start command calls [activate_token] exactly when the command
    carries a first argument of 36 characters, and then with that argument;
    in every other case (no argument, or one of another length) it makes no
    activation call: it starts with the validity check, issues a token when
    the check fails, and leaves the collection alone when it succeeds.
    Issued tokens have 36 characters. *)
Theorem start_handler_activation (command : list string) (uid : Z) (now : N)
    (rand : N) (c c' : collection) (r : result caption)
    (calls : list store_call) :
  start_handler command uid now rand c = (r, calls, c') ->
  (forall arg, command !! 1%nat = Some arg -> String.length arg = 36%nat ->
     calls = [CallActivate uid arg]
     /\ c' = (activate_token uid arg now c).2)
  /\ ((forall arg, command !! 1%nat = Some arg -> String.length arg <> 36%nat) ->
      (forall u tok, CallActivate u tok ∉ calls)
      /\ (calls = [CallHasValid uid] /\ c' = c
          \/ calls = [CallHasValid uid; CallGenerate uid]
             /\ c' = (generate_uuid uid rand c).2))
  /\ String.length (generate_uuid uid rand c).1 = 36%nat.
Proof.
  intros Hrun. split; [|split].
  - intros arg Harg Hlen.
    assert (Ha : activation_argument command = Some arg)
      by (apply activation_argument_Some; now split).
    unfold start_handler in Hrun. rewrite Ha in Hrun.
    destruct (activate_token uid arg now c) as [ok c1].
    injection Hrun as _ <- <-. now split.
  - intros Hno.
    assert (Ha : activation_argument command = None).
    { destruct (activation_argument command) as [a|] eqn:Ha; [|reflexivity].
      apply activation_argument_Some in Ha as [H1 H2].
      exfalso. exact (Hno a H1 H2). }
    unfold start_handler in Hrun. rewrite Ha in Hrun.
    pose proof (has_valid_token_collection uid now c) as Hsame.
    destruct (has_valid_token uid now c) as [[[|]|e] c1]; simpl in Hsame;
      subst c1.
    + injection Hrun as _ <- <-. split.
      * intros u tok Hin. apply list_elem_of_singleton in Hin. discriminate.
      * left. now split.
    + destruct (generate_uuid uid rand c) as [tok c2] eqn:Hg.
      injection Hrun as _ <- <-. split.
      * intros u tok' Hin.
        apply elem_of_cons in Hin as [Hin|Hin]; [discriminate|].
        apply list_elem_of_singleton in Hin. discriminate.
      * right. now split.
    + injection Hrun as _ <- <-. split.
      * intros u tok Hin. apply list_elem_of_singleton in Hin. discriminate.
      * left. now split.
  - unfold generate_uuid.
    destruct (update_one_upsert _ _ _ c).
    exact (PyFacts.length_uuid_str (uuid4 rand)).
Qed.

(** An instance: [/start abc] from user 7 with an empty store. The argument
    has three characters, so no activation is attempted and a token is
    issued instead. *)
Lemma start_handler_activation_witness :
  (forall u tok,
     CallActivate u tok ∉ (start_handler ["start"; "abc"]%string 7 5 0 []).1.2)
  /\ String.length (generate_uuid 7 0 []).1 = 36%nat.
Proof.
  destruct (start_handler_activation ["start"; "abc"]%string 7 5 0 []
              (start_handler ["start"; "abc"]%string 7 5 0 []).2
              (start_handler ["start"; "abc"]%string 7 5 0 []).1.1
              (start_handler ["start"; "abc"]%string 7 5 0 []).1.2
              eq_refl) as (_ & Hplain & Hlen).
  split; [|exact Hlen].
  apply Hplain. intros arg [= <-]. simpl. lia.
Defined.

End TokenFacts.

(** ** The upload pipeline *)

Module PipelineFacts.

Import Pipeline Scenarios.

(** *** File removal *)

(** [safe_remove] never raises, and afterwards the path is off the disk. *)
Lemma safe_remove_run (path : string) (w : world) :
  exists w', safe_remove path w = (Ok tt, w')
    /\ disk w' = delete path (disk w).
Proof.
  unfold safe_remove, try_except, os_remove, bind, log, logger_error. simpl.
  destruct (disk w !! path) as [size|] eqn:Hp.
  - eexists. split; reflexivity.
  - eexists. split; [reflexivity|]. simpl. symmetry. now apply delete_id.
Qed.

(** The loop of the [finally] clause never raises; it removes every path of
    the list and adds no file. *)
Lemma for_each_safe_remove_run (paths : list string) (w : world) :
  exists w', for_each safe_remove paths w = (Ok tt, w')
    /\ (forall p, p ∈ paths -> disk w' !! p = None)
    /\ (forall p, disk w !! p = None -> disk w' !! p = None).
Proof.
  revert w. induction paths as [|path paths IH]; intros w; simpl.
  - exists w. split; [reflexivity|]. split; [|auto].
    intros p Hp. inversion Hp.
  - destruct (safe_remove_run path w) as (w1 & Hrun & Hdisk).
    destruct (IH w1) as (w2 & Hrest & Hgone & Hkeep).
    exists w2. unfold bind. rewrite Hrun. split; [exact Hrest|]. split.
    + intros p Hp. apply elem_of_cons in Hp as [->|Hp]; [|now apply Hgone].
      apply Hkeep. rewrite Hdisk. apply lookup_delete_eq.
    + intros p Hp. apply Hkeep. rewrite Hdisk.
      destruct (decide (path = p)) as [->|Hne];
        [apply lookup_delete_eq | now rewrite lookup_delete_ne].
Qed.

(** When the split itself succeeds, every part it lists is off the disk once
    [split_and_upload] is over, whatever the uploads did, and the outcome is
    the outcome of the upload loop: the [finally] clause adds no error. *)
Lemma split_and_upload_removes_parts (E : env) (file_path : string)
    (status : message) (w w1 : world) (split_files : list string) :
  split_video E file_path w = (Ok split_files, w1) ->
  exists w',
    split_and_upload E file_path status w
    = ((for_each (fun part => upload_file E part status) split_files w1).1, w')
    /\ forall part, part ∈ split_files -> disk w' !! part = None.
Proof.
  intros Hsplit. unfold split_and_upload, try_finally. rewrite Hsplit.
  destruct (for_each _ split_files w1) as [r w2].
  destruct (for_each_safe_remove_run split_files w2) as (w3 & Hrm & Hgone & _).
  rewrite Hrm. exists w3. split; [reflexivity | exact Hgone].
Qed.

(** C2. The split step fails after its first part is on the disk: starting
    the second stream copy raises. The specification asks that the part be
    removed and that the cleanup scope raise nothing new; the code reads the
    unbound
    name [split_files] in its [finally] clause, so [UnboundLocalError]
    escapes, no removal is attempted, and the first part stays on the disk. *)
Theorem split_and_upload_split_failure :
  fst (split_and_upload second_copy_spawn_fails video status_message fetched)
  = Raise UnboundLocalError
  /\ disk (snd (split_and_upload second_copy_spawn_fails video status_message
                  fetched)) !! "/d/v.part001.mp4"%string = Some 100
  /\ trace (snd (split_and_upload second_copy_spawn_fails video status_message
                   fetched))
     = [ FfprobeDuration video;
         FfmpegCopy (SplitCmd 0%float video 30%float "/d/v.part001.mp4");
         FfmpegCopy (SplitCmd 30%float video 30%float "/d/v.part002.mp4");
         LogError "Video splitting failed" ].
Proof. repeat split; vm_compute; reflexivity. Qed.

(** The same run seen from the pipeline: the guaranteed cleanup removes the
    fetched video, the error of the [finally] clause reaches the caller of
    the pipeline, and the first part is still on the disk at the end. *)
Example upload_then_cleanup_split_failure :
  fst (upload_then_cleanup second_copy_spawn_fails the_download status_message
         original_message fetched)
  = Raise UnboundLocalError
  /\ disk (snd (upload_then_cleanup second_copy_spawn_fails the_download
                  status_message original_message fetched))
       !! "/d/v.part001.mp4"%string = Some 100
  /\ disk (snd (upload_then_cleanup second_copy_spawn_fails the_download
                  status_message original_message fetched))
       !! video = None.
Proof. repeat split; vm_compute; reflexivity. Qed.

(** With a working environment the three parts are uploaded in order and
    nothing but the fetched video is left for the final cleanup. *)
Example split_and_upload_all_fine :
  fst (split_and_upload (all_fine false) video status_message fetched) = Ok tt
  /\ disk (snd (split_and_upload (all_fine false) video status_message
                  fetched))
     = {[ video := 5 * GiB ]}.
Proof. split; vm_compute; reflexivity. Qed.

(** *** The final cleanup *)

(** C1, as stated, fails: when deleting the status message raises, the
    original request message is not deleted, the fetched file is neither
    looked up nor removed, and it stays on the disk. *)
Lemma cleanup_counterexample :
  (DeleteMessage original_message
     ∉ trace (snd (cleanup status_delete_fails the_download status_message
                     original_message fetched)))
  /\ (PathExists video
        ∉ trace (snd (cleanup status_delete_fails the_download status_message
                        original_message fetched)))
  /\ disk (snd (cleanup status_delete_fails the_download status_message
                  original_message fetched)) !! video = Some (5 * GiB).
Proof.
  split; [|split].
  - intros H. apply list_elem_of_In in H. vm_compute in H.
    intuition discriminate.
  - intros H. apply list_elem_of_In in H. vm_compute in H.
    intuition discriminate.
  - vm_compute. reflexivity.
Qed.

(** C1, amended. The cleanup never raises. Deleting the status message is
    always attempted. Deleting the original message is attempted exactly
    when the first deletion returned, and the fetched file is looked up (and
    removed if present) exactly when both deletions returned; the first
    failure is logged and ends the cleanup, leaving the disk as it was. *)
Theorem cleanup_spec (E : env) (d : download) (status original : message)
    (w : world) :
  exists w',
    cleanup E d status original w = (Ok tt, w')
    /\ (delete_message E status = false ->
        trace w' = trace w ++ [DeleteMessage status; LogError "Cleanup failed"]
        /\ disk w' = disk w)
    /\ (delete_message E status = true ->
        delete_message E original = false ->
        trace w' = trace w ++ [DeleteMessage status; DeleteMessage original;
                               LogError "Cleanup failed"]
        /\ disk w' = disk w)
    /\ (delete_message E status = true ->
        delete_message E original = true ->
        forall path rest, files d = path :: rest ->
          disk w' = delete path (disk w)
          /\ exists tail,
               trace w' = trace w ++ [DeleteMessage status;
                                      DeleteMessage original;
                                      PathExists path] ++ tail).
Proof.
  unfold cleanup, try_except, telegram, first_file_path, path_exists,
    os_remove, bind, log, logger_error, ret, raise.
  destruct (delete_message E status) eqn:Hs; simpl.
  2:{ eexists. split; [reflexivity|].
      split; [|split; intros; discriminate].
      intros _. simpl. split; [|reflexivity]. now rewrite <- app_assoc. }
  destruct (delete_message E original) eqn:Ho; simpl.
  2:{ eexists. split; [reflexivity|].
      split; [discriminate|]. split; [|intros; discriminate].
      intros _ _. simpl. split; [|reflexivity]. now rewrite <- !app_assoc. }
  destruct (files d) as [|path rest] eqn:Hf; simpl.
  { eexists. split; [reflexivity|].
    split; [discriminate|]. split; intros; discriminate. }
  destruct (disk w !! path) as [size|] eqn:Hp; simpl; rewrite ?Hp.
  - eexists. split; [reflexivity|].
    split; [discriminate|]. split; [intros; discriminate|].
    intros _ _ path0 rest0 [= <- <-]. simpl. split; [reflexivity|].
    exists [OsRemove path]. now rewrite <- !app_assoc.
  - eexists. split; [reflexivity|].
    split; [discriminate|]. split; [intros; discriminate|].
    intros _ _ path0 rest0 [= <- <-]. simpl.
    split; [symmetry; now apply delete_id|].
    exists []. now rewrite <- !app_assoc.
Qed.

(** An instance: both deletions return and the fetched video is removed. *)
Lemma cleanup_spec_witness :
  exists w',
    cleanup (all_fine false) the_download status_message original_message
      fetched = (Ok tt, w')
    /\ disk w' = delete video (disk fetched).
Proof.
  destruct (cleanup_spec (all_fine false) the_download status_message
              original_message fetched) as (w' & Hrun & _ & _ & Hboth).
  exists w'. split; [exact Hrun|].
  exact (proj1 (Hboth eq_refl eq_refl video [] eq_refl)).
Defined.

(** *** Splitting *)

Lemma write_file_run (path : string) (written : option Z) (w : world) :
  exists w', write_file path written w = (Ok tt, w') /\ trace w' = trace w.
Proof. destruct written; eexists; split; reflexivity. Qed.

(** When every process of the loop starts, the loop lists one part per
    index, in order, and issues one stream copy per part, whatever the exit
    statuses are. *)
Lemma split_loop_ok (E : env) (path : string) (dpp : float) (n i : nat)
    (acc : list string) (w : world) :
  (forall k, (i <= k < i + n)%nat ->
     ffmpeg_copy E (part_cmd path dpp k) <> SpawnError) ->
  exists w',
    split_loop E path dpp n i acc w
    = (Ok (acc ++ (part_path path <$> seq i n)), w')
    /\ trace w'
       = trace w ++ ((fun k => FfmpegCopy (part_cmd path dpp k)) <$> seq i n).
Proof.
  revert i acc w. induction n as [|n IH]; intros i acc w Hstart.
  - exists w. simpl. now rewrite !app_nil_r.
  - cbn [split_loop]. unfold bind at 1. unfold log at 1.
    destruct (ffmpeg_copy E (part_cmd path dpp i)) as [|rc written] eqn:Hc.
    { exfalso. apply (Hstart i); [lia | exact Hc]. }
    unfold bind at 1.
    destruct (write_file_run (cmd_output (part_cmd path dpp i)) written
                (World (disk w) (trace w ++ [FfmpegCopy (part_cmd path dpp i)])))
      as (w1 & -> & Ht1).
    destruct (IH (S i) (acc ++ [cmd_output (part_cmd path dpp i)]) w1)
      as (w2 & -> & Ht2).
    { intros k Hk. apply Hstart. lia. }
    exists w2. split.
    + simpl. now rewrite <- app_assoc.
    + rewrite Ht2, Ht1. simpl. now rewrite <- app_assoc.
Qed.

(** When some process of the loop cannot be started, the loop raises. *)
Lemma split_loop_spawn_error (E : env) (path : string) (dpp : float)
    (n i k : nat) (acc : list string) (w : world) :
  (i <= k < i + n)%nat ->
  ffmpeg_copy E (part_cmd path dpp k) = SpawnError ->
  exists w', split_loop E path dpp n i acc w = (Raise OSError, w').
Proof.
  revert i acc w. induction n as [|n IH]; intros i acc w Hk Hfail; [lia|].
  cbn [split_loop]. unfold bind at 1. unfold log at 1.
  destruct (ffmpeg_copy E (part_cmd path dpp i)) as [|rc written] eqn:Hc.
  { eexists. reflexivity. }
  unfold bind at 1.
  destruct (write_file_run (cmd_output (part_cmd path dpp i)) written
              (World (disk w) (trace w ++ [FfmpegCopy (part_cmd path dpp i)])))
    as (w1 & -> & _).
  apply IH; [|exact Hfail].
  destruct (decide (k = i)) as [->|Hne]; [congruence | lia].
Qed.

(** [split_video] up to its loop, once the probe has answered with a
    duration and the size of the file is known. *)
Lemma split_video_unfold (E : env) (path : string) (w : world) (rc : Z)
    (total : float) (size : Z) :
  ffprobe_duration E path = Exited rc (Some total) ->
  disk w !! path = Some size ->
  ceil_truediv size DEFAULT_SPLIT_SIZE <> 0 ->
  split_video E path w
  = try_except
      (split_loop E path
         (PrimFloat.div total
            (float_of_int (ceil_truediv size DEFAULT_SPLIT_SIZE)))
         (Z.to_nat (ceil_truediv size DEFAULT_SPLIT_SIZE)) 0 [])
      (fun e => logger_error "Video splitting failed" ;;; raise e)
      (World (disk w) (trace w ++ [FfprobeDuration path])).
Proof.
  intros Hprobe Hsize Hparts.
  unfold split_video, try_except, bind, log, getsize, ret. simpl.
  rewrite Hprobe. simpl. rewrite Hsize.
  apply Z.eqb_neq in Hparts. rewrite Hparts. reflexivity.
Qed.

(** Below 2^53 bytes the part count is the exact ceiling of the size over
    the default split size. *)
Lemma ceil_truediv_exact (size : Z) :
  size < 2 ^ 53 ->
  ceil_truediv size DEFAULT_SPLIT_SIZE
  = (size + DEFAULT_SPLIT_SIZE - 1) / DEFAULT_SPLIT_SIZE.
Proof.
  intros Hlt. unfold ceil_truediv, round53.
  apply Z.ltb_lt in Hlt. now rewrite Hlt.
Qed.

(** Beyond 2^53 bytes the conversion to a float rounds the size first. *)
Example ceil_truediv_rounds :
  ceil_truediv (2 ^ 53 + 1) DEFAULT_SPLIT_SIZE = 4194304
  /\ (2 ^ 53 + 1 + DEFAULT_SPLIT_SIZE - 1) / DEFAULT_SPLIT_SIZE = 4194305.
Proof. split; reflexivity. Qed.

(** C6. The upload is split exactly when the size of the fetched file is
    strictly above the ceiling: not at the ceiling itself, and already one
    byte above it. The ceiling is 4 GiB when the user client is configured
    and 2 GiB otherwise. [handle_upload] branches on this test alone. *)
Theorem needs_split_spec (E : env) (file_size : Z) :
  needs_split E file_size = bool_decide (split_size E < file_size)
  /\ needs_split E (split_size E) = false
  /\ needs_split E (split_size E + 1) = true
  /\ split_size E = (if user_client E then 4 * 1024 ^ 3 else 2 * 1024 ^ 3)
  /\ (forall (d : download) (status : message) (w : world) path rest,
        files d = path :: rest ->
        disk w !! path = Some file_size ->
        handle_upload E d status w
        = if bool_decide (split_size E < file_size)
          then split_and_upload E path status w
          else direct_upload E path status w).
Proof.
  assert (Hiff : forall size,
            needs_split E size = bool_decide (split_size E < size)).
  { intros size. unfold needs_split.
    destruct (Z.ltb_spec (split_size E) size);
      [now rewrite bool_decide_eq_true_2 | rewrite bool_decide_eq_false_2; [reflexivity | lia]]. }
  split; [apply Hiff|]. split; [|split; [|split]].
  - unfold needs_split. apply Z.ltb_irrefl.
  - unfold needs_split. apply Z.ltb_lt. lia.
  - unfold split_size. now destruct (user_client E).
  - intros d status w path rest Hf Hsize.
    unfold handle_upload, first_file_path, bind, getsize, ret.
    rewrite Hf, Hsize, Hiff.
    now destruct (bool_decide (split_size E < file_size)).
Qed.

(** An instance: the fetched video of 5 GiB under the default ceiling. *)
Lemma needs_split_spec_witness :
  handle_upload (all_fine false) the_download status_message fetched
  = split_and_upload (all_fine false) video status_message fetched.
Proof.
  exact (proj2 (proj2 (proj2 (proj2
           (needs_split_spec (all_fine false) (5 * GiB)))))
           the_download status_message fetched video [] eq_refl eq_refl).
Defined.

(** [split_video] returns the parts of its loop when every process starts. *)
Lemma split_video_ok (E : env) (path : string) (w : world) (rc : Z)
    (total : float) (size : Z) :
  ffprobe_duration E path = Exited rc (Some total) ->
  disk w !! path = Some size ->
  0 < ceil_truediv size DEFAULT_SPLIT_SIZE ->
  (forall k, (k < Z.to_nat (ceil_truediv size DEFAULT_SPLIT_SIZE))%nat ->
     ffmpeg_copy E
       (part_cmd path
          (PrimFloat.div total
             (float_of_int (ceil_truediv size DEFAULT_SPLIT_SIZE))) k)
     <> SpawnError) ->
  exists w',
    split_video E path w
    = (Ok (part_path path
             <$> seq 0 (Z.to_nat (ceil_truediv size DEFAULT_SPLIT_SIZE))), w')
    /\ trace w'
       = trace w ++ FfprobeDuration path
           :: ((fun k =>
                  FfmpegCopy
                    (part_cmd path
                       (PrimFloat.div total
                          (float_of_int (ceil_truediv size DEFAULT_SPLIT_SIZE)))
                       k))
                 <$> seq 0 (Z.to_nat (ceil_truediv size DEFAULT_SPLIT_SIZE))).
Proof.
  intros Hprobe Hsize Hparts Hstart.
  rewrite (split_video_unfold E path w rc total size Hprobe Hsize) by lia.
  unfold try_except.
  edestruct split_loop_ok as (w' & -> & Ht).
  { intros k Hk. apply Hstart. lia. }
  exists w'. split; [reflexivity|].
  rewrite Ht. simpl. now rewrite <- app_assoc.
Qed.

(** C3, as stated, fails: the second stream copy runs and exits with status
    1 without writing its part, yet the split returns the full list, the
    missing part included, and goes on to the third part. *)
Lemma split_video_exit_status_counterexample :
  ffmpeg_copy second_copy_exits_1
    (SplitCmd 30%float video 30%float "/d/v.part002.mp4") = Exited 1 None
  /\ fst (split_video second_copy_exits_1 video fetched)
     = Ok ["/d/v.part001.mp4"; "/d/v.part002.mp4"; "/d/v.part003.mp4"]%string
  /\ disk (snd (split_video second_copy_exits_1 video fetched))
       !! "/d/v.part002.mp4"%string = None
  /\ trace (snd (split_video second_copy_exits_1 video fetched))
     = [ FfprobeDuration video;
         FfmpegCopy (SplitCmd 0%float video 30%float "/d/v.part001.mp4");
         FfmpegCopy (SplitCmd 30%float video 30%float "/d/v.part002.mp4");
         FfmpegCopy (SplitCmd 60%float video 30%float "/d/v.part003.mp4") ].
Proof. repeat split; vm_compute; reflexivity. Qed.

(** C3, amended. The split is aborted with an error when the probe cannot
    be started or prints no number, and when the process of some stream
    copy cannot be started. The exit status of a stream copy is not read:
    when every process starts, the split returns the full list of parts
    whatever the statuses are. *)
Theorem split_video_abort (E : env) (path : string) (w : world) :
  (ffprobe_duration E path = SpawnError
   \/ (exists rc, ffprobe_duration E path = Exited rc None) ->
   exists e w', split_video E path w = (Raise e, w'))
  /\ (forall rc total size k,
        ffprobe_duration E path = Exited rc (Some total) ->
        disk w !! path = Some size ->
        (k < Z.to_nat (ceil_truediv size DEFAULT_SPLIT_SIZE))%nat ->
        ffmpeg_copy E
          (part_cmd path
             (PrimFloat.div total
                (float_of_int (ceil_truediv size DEFAULT_SPLIT_SIZE))) k)
        = SpawnError ->
        exists w', split_video E path w = (Raise OSError, w'))
  /\ (forall rc total size,
        ffprobe_duration E path = Exited rc (Some total) ->
        disk w !! path = Some size ->
        0 < ceil_truediv size DEFAULT_SPLIT_SIZE ->
        (forall k, (k < Z.to_nat (ceil_truediv size DEFAULT_SPLIT_SIZE))%nat ->
           exists status written,
             ffmpeg_copy E
               (part_cmd path
                  (PrimFloat.div total
                     (float_of_int (ceil_truediv size DEFAULT_SPLIT_SIZE))) k)
             = Exited status written) ->
        exists w',
          split_video E path w
          = (Ok (part_path path
                   <$> seq 0 (Z.to_nat (ceil_truediv size DEFAULT_SPLIT_SIZE))),
             w')).
Proof.
  split; [|split].
  - intros [Hp | [rc Hp]];
      unfold split_video, try_except, bind, log, logger_error, raise;
      simpl; rewrite Hp; simpl; eexists; eexists; reflexivity.
  - intros rc total size k Hprobe Hsize Hk Hfail.
    rewrite (split_video_unfold E path w rc total size Hprobe Hsize) by lia.
    unfold try_except.
    edestruct (split_loop_spawn_error E path) as (w1 & ->);
      [| exact Hfail |]; [lia|].
    eexists. reflexivity.
  - intros rc total size Hprobe Hsize Hparts Hexit.
    destruct (split_video_ok E path w rc total size Hprobe Hsize Hparts)
      as (w' & Hrun & _).
    + intros k Hk Hc. destruct (Hexit k Hk) as (st & wr & Hex). congruence.
    + now exists w'.
Qed.

(** An instance: the second stream copy cannot be started. *)
Lemma split_video_abort_witness :
  exists w',
    split_video second_copy_spawn_fails video fetched = (Raise OSError, w').
Proof.
  exact (proj1 (proj2 (split_video_abort second_copy_spawn_fails video fetched))
           0 90%float (5 * GiB) 1%nat eq_refl eq_refl
           ltac:(vm_compute; lia) eq_refl).
Defined.

(** C7, as stated, fails: with the user client configured the ceiling is
    4 GiB, a file of 5 GiB is split, and the split makes three parts where
    the ceiling of 5 GiB over 4 GiB is two. *)
Lemma split_video_parts_counterexample :
  split_size (all_fine true) = 4 * GiB
  /\ needs_split (all_fine true) (5 * GiB) = true
  /\ fst (split_video (all_fine true) video fetched)
     = Ok ["/d/v.part001.mp4"; "/d/v.part002.mp4"; "/d/v.part003.mp4"]%string
  /\ (5 * GiB + split_size (all_fine true) - 1) / split_size (all_fine true)
     = 2.
Proof. repeat split; vm_compute; reflexivity. Qed.

(** C7, amended. For a file of [size] bytes (positive, below 2^53) whose
    probe gives the duration [total], and when every process starts, the
    split returns exactly ceil(size / 2 GiB) parts in order, the divisor
    being the default split size whichever ceiling is in effect. Part [i]
    (from 0) is named by the root of the path, [.part], the number [i+1]
    written in decimal and padded with zeros to at least three characters
    (exactly three up to 999), and the extension of the path. Its stream
    copy starts at [float(i) * (total / float(parts))] and lasts
    [total / float(parts)]. *)
Theorem split_video_parts (E : env) (path : string) (w : world) (rc : Z)
    (total : float) (size : Z) (parts : nat) (duration_per_part : float) :
  ffprobe_duration E path = Exited rc (Some total) ->
  disk w !! path = Some size ->
  0 < size < 2 ^ 53 ->
  parts = Z.to_nat ((size + 2 * 1024 ^ 3 - 1) / (2 * 1024 ^ 3)) ->
  duration_per_part = PrimFloat.div total (float_of_int (Z.of_nat parts)) ->
  (forall i, (i < parts)%nat ->
     ffmpeg_copy E (part_cmd path duration_per_part i) <> SpawnError) ->
  exists w',
    split_video E path w
    = (Ok ((fun i =>
              fst (splitext path) +:+ ".part"
                +:+ format_03d (N.of_nat (i + 1)) +:+ snd (splitext path))
             <$> seq 0 parts), w')
    /\ trace w'
       = trace w ++ FfprobeDuration path
           :: ((fun i =>
                  FfmpegCopy
                    (SplitCmd
                       (PrimFloat.mul (float_of_int (Z.of_nat i))
                          duration_per_part)
                       path duration_per_part
                       (fst (splitext path) +:+ ".part"
                          +:+ format_03d (N.of_nat (i + 1))
                          +:+ snd (splitext path))))
                 <$> seq 0 parts)
    /\ (forall i,
          int_of_digits (format_03d (N.of_nat (i + 1))) = Some (N.of_nat (i + 1))
          /\ (3 <= String.length (format_03d (N.of_nat (i + 1))))%nat
          /\ ((i + 1 < 1000)%nat ->
              String.length (format_03d (N.of_nat (i + 1))) = 3%nat)).
Proof.
  intros Hprobe Hsize [Hpos Hlt] Hparts Hdpp Hstart.
  pose proof (ceil_truediv_exact size Hlt) as Hceil.
  change DEFAULT_SPLIT_SIZE with (2 * 1024 ^ 3) in Hceil.
  assert (Hge : 1 <= (size + 2 * 1024 ^ 3 - 1) / (2 * 1024 ^ 3)).
  { apply Z.div_le_lower_bound; lia. }
  assert (Hback : Z.of_nat parts = ceil_truediv size (2 * 1024 ^ 3)).
  { rewrite Hparts, Hceil. apply Z2Nat.id. lia. }
  destruct (split_video_ok E path w rc total size Hprobe Hsize)
    as (w' & Hrun & Htrace).
  { change DEFAULT_SPLIT_SIZE with (2 * 1024 ^ 3). lia. }
  { change DEFAULT_SPLIT_SIZE with (2 * 1024 ^ 3).
    rewrite <- Hback, <- Hdpp, Nat2Z.id. exact Hstart. }
  change DEFAULT_SPLIT_SIZE with (2 * 1024 ^ 3) in Hrun, Htrace.
  rewrite <- Hback, Nat2Z.id in Hrun.
  rewrite <- Hback, <- Hdpp, Nat2Z.id in Htrace.
  exists w'. split; [exact Hrun|]. split; [exact Htrace|].
  intros i. split; [apply PyFacts.int_of_digits_format_03d|].
  split; [apply PyFacts.length_format_03d_ge|].
  intros Hi. apply PyFacts.length_format_03d_small. lia.
Qed.

(** An instance: the video of 5 GiB lasting 90 seconds, under the default
    ceiling, gives three parts. *)
Lemma split_video_parts_witness :
  exists w',
    split_video (all_fine false) video fetched
    = (Ok ["/d/v.part001.mp4"; "/d/v.part002.mp4"; "/d/v.part003.mp4"]%string,
       w').
Proof.
  destruct (split_video_parts (all_fine false) video fetched 0 90%float
              (5 * GiB) 3%nat 30%float eq_refl eq_refl
              ltac:(vm_compute; split; reflexivity) eq_refl eq_refl
              ltac:(intros i _; discriminate))
    as (w' & Hrun & _).
  exists w'. exact Hrun.
Defined.

End PipelineFacts.

(** ** The link validator *)

Module UrlFacts.

Import Url PyFacts.

(** Case analysis on [H : x ∈ [a; b; ...]], closing each case with [tac]. *)
Ltac each_member H tac :=
  repeat (apply elem_of_cons in H as [->|H]; [tac|]); inversion H.

Lemma scheme_char_not_special (c : ascii) :
  c ∈ [":"; "/"; "?"; "#"; "["; "]"; TAB; CR; LF]%char ->
  is_scheme_char c = false.
Proof. intros Hc. each_member Hc ltac:(reflexivity). Qed.

Lemma alpha_not_control (a : ascii) :
  is_ascii_alpha a = true -> is_c0_control_or_space a = false.
Proof.
  unfold is_ascii_alpha, is_c0_control_or_space.
  destruct (N.leb_spec (N_of_ascii a) 32) as [Hle|]; [|reflexivity].
  intros H. apply orb_true_iff in H as [H|H];
    apply andb_true_iff in H as [H _]; apply N.leb_le in H; lia.
Qed.

Lemma alpha_is_scheme_char (a : ascii) :
  is_ascii_alpha a = true -> is_scheme_char a = true.
Proof.
  unfold is_ascii_alpha, is_scheme_char. intros ->. reflexivity.
Qed.

(** The network location of [//host/rest] is [host] when [host] holds none
    of the delimiters. *)
Lemma splitnetloc_host (host rest : string) :
  contains "/" host = false ->
  contains "?" host = false ->
  contains "#" host = false ->
  splitnetloc (String "/" (String "/" (host +:+ String "/" rest))) 2
  = (host, String "/" rest).
Proof.
  intros Hslash Hquery Hhash.
  unfold splitnetloc, find_from. cbn [fold_left drop String.length].
  rewrite !find_app_skip by assumption. cbn [find].
  rewrite length_app. cbn [String.length].
  change (Ascii.eqb "/" "/") with true.
  change (Ascii.eqb "/" "?") with false.
  change (Ascii.eqb "/" "#") with false.
  cbn [fmap option_fmap option_map].
  set (h := String.length host).
  destruct (find "#" rest) as [j|], (find "?" rest) as [k|];
    cbn [fmap option_fmap option_map];
    match goal with
    | |- (take (?d - 2) _, drop ?d _) = _ =>
        replace d with (S (S h)) by lia
    end;
    cbn [drop]; replace (S (S h) - 2)%nat with h by lia;
    unfold h; now rewrite take_app_length, drop_app_length.
Qed.

Lemma string_app_assoc (s t u : string) : (s +:+ t) +:+ u = s +:+ (t +:+ u).
Proof.
  induction s as [|a s IH]; [reflexivity|]. rewrite !app_cons. now rewrite IH.
Qed.

Lemma drop_app_length_S (s t : string) (c : ascii) :
  drop (S (String.length s)) (s +:+ String c t) = t.
Proof. induction s as [|a s IH]; [reflexivity | exact IH]. Qed.

(** Removing a tab, a carriage return or a line feed leaves
    [scheme://host/...] as it is up to the path. *)
Lemma remove_char_url (c : ascii) (scheme host rest : string) :
  c ∈ [TAB; CR; LF] ->
  all_chars is_scheme_char scheme = true ->
  all_chars is_scheme_char host = true ->
  remove_char c
    (scheme +:+ String ":" (String "/" (String "/" (host +:+ String "/" rest))))
  = scheme +:+ String ":" (String "/" (String "/"
      (host +:+ String "/" (remove_char c rest)))).
Proof.
  intros Hc Hscheme Hhost.
  assert (Hnot : is_scheme_char c = false).
  { apply scheme_char_not_special. each_member Hc ltac:(set_solver). }
  rewrite remove_char_app.
  rewrite (remove_char_id c scheme)
    by (eapply all_chars_not_contains; eassumption).
  f_equal.
  assert (Hcolon : Ascii.eqb ":" c = false /\ Ascii.eqb "/" c = false).
  { each_member Hc ltac:(split; reflexivity). }
  destruct Hcolon as [Hcolon Hslash].
  cbn [remove_char]. rewrite Hcolon, Hslash. do 3 f_equal.
  rewrite remove_char_app.
  rewrite (remove_char_id c host)
    by (eapply all_chars_not_contains; eassumption).
  f_equal. cbn [remove_char]. now rewrite Hslash.
Qed.

Lemma valid_domains_scheme_chars (domain : string) :
  domain ∈ VALID_DOMAINS -> all_chars is_scheme_char domain = true.
Proof.
  intros Hd. each_member Hd ltac:(reflexivity).
Qed.

(** A URL with a scheme, a host made of letters, digits, dots and hyphens,
    and a path has that host as its network location. *)
Lemma urlparse_netloc_host (check : string -> bool) (a : ascii)
    (scheme host rest : string) :
  is_ascii_alpha a = true ->
  all_chars is_scheme_char scheme = true ->
  all_chars is_scheme_char host = true ->
  urlparse_netloc check
    (String a scheme +:+ "://" +:+ host +:+ "/" +:+ rest)
  = Ok host.
Proof.
  intros Ha Hscheme Hhost.
  assert (Hs : all_chars is_scheme_char (String a scheme) = true).
  { cbn [all_chars]. now rewrite (alpha_is_scheme_char a Ha). }
  unfold urlparse_netloc.
  change (String a scheme +:+ "://" +:+ host +:+ "/" +:+ rest)
    with (String a (scheme +:+ String ":" (String "/" (String "/"
            (host +:+ String "/" rest))))).
  cbn [lstrip]. rewrite (alpha_not_control a Ha).
  change (String a (scheme +:+ String ":" (String "/" (String "/"
            (host +:+ String "/" rest)))))
    with (String a scheme +:+ String ":" (String "/" (String "/"
            (host +:+ String "/" rest)))).
  rewrite !remove_char_url by (assumption || set_solver).
  set (path := remove_char LF (remove_char CR (remove_char TAB rest))).
  rewrite find_app_skip
    by (eapply all_chars_not_contains; [exact Hs | reflexivity]).
  cbn [find]. change (Ascii.eqb ":" ":") with true.
  cbn [fmap option_fmap option_map String.length].
  rewrite Nat.add_0_r.
  replace (take 1 (String a scheme +:+ _)) with (String a EmptyString)
    by reflexivity.
  cbn [all_chars]. rewrite Ha. cbn [andb].
  change (S (String.length scheme)) with (String.length (String a scheme)).
  rewrite take_app_length, Hs, drop_app_length_S.
  change (String.eqb (take 2 _) "//") with true. cbv iota.
  rewrite splitnetloc_host
    by (eapply all_chars_not_contains; [exact Hhost | reflexivity]).
  rewrite (all_chars_not_contains _ _ "["%char Hhost) by reflexivity.
  rewrite (all_chars_not_contains _ _ "]"%char Hhost) by reflexivity.
  reflexivity.
Qed.

(** C8, as stated, fails in each of its three parts: a bare allow-listed
    hostname is refused, a malformed URI makes the validator raise, and a
    host that merely ends with the letters of an allow-listed domain,
    without being a subdomain of it, is accepted. *)
Lemma is_valid_url_counterexample :
  is_valid_url (fun _ => true) "terabox.com" = Ok false
  /\ is_valid_url (fun _ => true) "http://[" = Raise ValueError
  /\ is_valid_url (fun _ => true) "https://notterabox.com/x" = Ok true.
Proof. repeat split; vm_compute; reflexivity. Qed.

(** C8, amended. Whenever URL parsing returns, the validator returns a
    boolean, and it returns true exactly when the network location of the
    URL (the text between [//] and the next [/], [?] or [#]) ends with one
    of the allow-listed domains. Hence a string with neither [:] nor [/],
    such as a bare hostname, is refused; and a URL made of a scheme, [://],
    any prefix of letters, digits, dots and hyphens followed by an
    allow-listed domain, and a path is accepted. *)
Theorem is_valid_url_spec (check : string -> bool) (url : string) :
  (is_valid_url check url = Ok true <->
     exists netloc domain prefix,
       urlparse_netloc check url = Ok netloc
       /\ domain ∈ VALID_DOMAINS /\ netloc = prefix +:+ domain)
  /\ (forall netloc, urlparse_netloc check url = Ok netloc ->
        exists b, is_valid_url check url = Ok b)
  /\ (contains ":" url = false -> contains "/" url = false ->
      is_valid_url check url = Ok false)
  /\ (forall a scheme sub domain rest,
        is_ascii_alpha a = true ->
        all_chars is_scheme_char scheme = true ->
        all_chars is_scheme_char sub = true ->
        domain ∈ VALID_DOMAINS ->
        url = String a scheme +:+ "://" +:+ (sub +:+ domain) +:+ "/" +:+ rest ->
        is_valid_url check url = Ok true).
Proof.
  assert (Hiff : forall netloc,
    existsb (fun domain => endswith netloc domain) VALID_DOMAINS = true <->
    exists domain prefix, domain ∈ VALID_DOMAINS /\ netloc = prefix +:+ domain).
  { intros netloc. rewrite existsb_exists. split.
    - intros (domain & Hin & Hend). apply endswith_spec in Hend as [prefix ->].
      exists domain, prefix. split; [now apply list_elem_of_In | reflexivity].
    - intros (domain & prefix & Hin & ->). exists domain.
      split; [now apply list_elem_of_In | apply endswith_spec; now exists prefix]. }
  split; [|split; [|split]].
  - unfold is_valid_url. destruct (urlparse_netloc check url) as [netloc|e].
    + split.
      * intros [= Hex]. apply Hiff in Hex as (domain & prefix & Hin & ->).
        now exists (prefix +:+ domain), domain, prefix.
      * intros (netloc' & domain & prefix & [= <-] & Hin & ->).
        f_equal. apply Hiff. now exists domain, prefix.
    + split; [discriminate | intros (? & ? & ? & ? & _); discriminate].
  - intros netloc Hparse. unfold is_valid_url. rewrite Hparse. now eexists.
  - intros Hcolon Hslash. unfold is_valid_url, urlparse_netloc.
    set (url1 := lstrip is_c0_control_or_space url).
    set (url2 := remove_char LF (remove_char CR (remove_char TAB url1))).
    assert (Hc2 : contains ":" url2 = false)
      by (unfold url2, url1;
          now repeat apply contains_remove_char; apply contains_lstrip).
    assert (Hs2 : contains "/" url2 = false)
      by (unfold url2, url1;
          now repeat apply contains_remove_char; apply contains_lstrip).
    rewrite (find_not_contains _ _ Hc2). clearbody url2.
    destruct (String.eqb_spec (take 2 url2) "//") as [Heq|_]; [|reflexivity].
    destruct url2 as [|x rest]; [discriminate Heq|].
    cbn [take] in Heq. injection Heq as -> _. discriminate Hs2.
  - intros a scheme sub domain rest Ha Hscheme Hsub Hin ->.
    unfold is_valid_url. rewrite urlparse_netloc_host; try assumption.
    + f_equal. apply Hiff. now exists domain, sub.
    + rewrite all_chars_app, Hsub. now apply valid_domains_scheme_chars.
Qed.

(** An instance: a share link on a subdomain of an allow-listed domain. *)
Lemma is_valid_url_spec_witness :
  is_valid_url (fun _ => true) "https://www.terabox.com/s/1abc" = Ok true.
Proof.
  apply (proj2 (proj2 (proj2
           (is_valid_url_spec (fun _ => true) "https://www.terabox.com/s/1abc")))
           "h"%char "ttps"%string "www."%string "terabox.com"%string
           "s/1abc"%string);
    [reflexivity | reflexivity | reflexivity | | reflexivity].
  unfold VALID_DOMAINS. left.
Defined.

(** A port or a trailing dot after the domain defeats the suffix test. *)
Example is_valid_url_port :
  is_valid_url (fun _ => true) "https://terabox.com:8080/x" = Ok false.
Proof. vm_compute; reflexivity. Qed.

End UrlFacts.

(** ** The token life cycle: how the token functions compose *)

Module TokenLifecycle.

Import TokenStore TokenFacts TokenDocuments.

Section FirstMatch.

Variable query : document -> bool.

(** Either no document matches, or the collection splits at the first
    document that does. *)
Lemma first_match_split (c : collection) :
  Forall (fun d => query d = false) c
  \/ exists pre d post,
       c = pre ++ d :: post
       /\ Forall (fun d => query d = false) pre /\ query d = true.
Proof.
  induction c as [|d c IH].
  - left. constructor.
  - destruct (query d) eqn:Hq.
    + right. exists [], d, c. repeat split; [constructor | exact Hq].
    + destruct IH as [Hall | (pre & d' & post & -> & Hpre & Hd')].
      * left. now constructor.
      * right. exists (d :: pre), d', post.
        repeat split; [now constructor | exact Hd'].
Qed.

Lemma update_one_no_match (set : document -> document) (c : collection) :
  Forall (fun d => query d = false) c ->
  update_one query set c = (UpdateResult 0 0, c).
Proof.
  induction 1 as [|d c Hd _ IH]; simpl; [reflexivity|].
  now rewrite Hd, IH.
Qed.

Lemma update_one_app_skip (set : document -> document)
    (pre post : collection) (d : document) :
  Forall (fun d => query d = false) pre ->
  query d = true ->
  update_one query set (pre ++ d :: post)
  = (UpdateResult 1 (if decide (set d = d) then 0 else 1),
     pre ++ set d :: post).
Proof.
  intros Hpre Hd. induction Hpre as [|d' pre Hd' _ IH]; simpl.
  - now rewrite Hd.
  - now rewrite Hd', IH.
Qed.

Lemma find_one_no_match (c : collection) :
  Forall (fun d => query d = false) c -> find_one query c = None.
Proof.
  induction 1 as [|d c Hd _ IH]; simpl; [reflexivity|]. now rewrite Hd.
Qed.

Lemma find_one_app_skip (pre post : collection) (d : document) :
  Forall (fun d => query d = false) pre ->
  query d = true ->
  find_one query (pre ++ d :: post) = Some d.
Proof.
  intros Hpre Hd. induction Hpre as [|d' pre Hd' _ IH]; simpl.
  - now rewrite Hd.
  - now rewrite Hd'.
Qed.

Lemma find_one_app_no_match (c extra : collection) :
  Forall (fun d => query d = false) extra ->
  find_one query (c ++ extra) = find_one query c.
Proof.
  intros Hextra. induction c as [|d c IH]; simpl.
  - now apply find_one_no_match.
  - now destruct (query d).
Qed.

End FirstMatch.

(** [generate_uuid] appends the issued document when the user has none, and
    otherwise puts it in place of the first document of the user. *)
Lemma generate_uuid_shape (uid : Z) (rand : N) (c : collection) :
  (Forall (fun d => by_user uid d = false) c
   /\ generate_uuid uid rand c
      = (uuid_str (uuid4 rand), c ++ [issued uid rand]))
  \/ (exists pre d post,
        c = pre ++ d :: post
        /\ Forall (fun d => by_user uid d = false) pre
        /\ user_id d = uid
        /\ generate_uuid uid rand c
           = (uuid_str (uuid4 rand), pre ++ issued uid rand :: post)).
Proof.
  unfold generate_uuid, update_one_upsert.
  destruct (first_match_split (by_user uid) c)
    as [Hall | (pre & d & post & -> & Hpre & Hd)].
  - left. split; [exact Hall|]. now rewrite update_one_no_match.
  - right. exists pre, d, post. apply Z.eqb_eq in Hd as Hu.
    repeat split; try assumption.
    rewrite update_one_app_skip by assumption. simpl.
    unfold issued. now rewrite Hu.
Qed.

(** [activate_token] rewrites the first document that carries the user and
    the token, if there is one. *)
Lemma activate_token_shape (uid : Z) (tok : string) (now : N)
    (c : collection) :
  (Forall (fun d => by_user_and_token uid tok d = false) c
   /\ activate_token uid tok now c = (false, c))
  \/ (exists pre d post,
        c = pre ++ d :: post
        /\ Forall (fun d => by_user_and_token uid tok d = false) pre
        /\ user_id d = uid /\ token d = Some tok
        /\ activate_token uid tok now c
           = (bool_decide (d <> activated uid tok now),
              pre ++ activated uid tok now :: post)).
Proof.
  unfold activate_token. rewrite timedelta_12_hours.
  destruct (first_match_split (by_user_and_token uid tok) c)
    as [Hall | (pre & d & post & -> & Hpre & Hd)].
  - left. split; [exact Hall|]. now rewrite update_one_no_match.
  - right. exists pre, d, post.
    apply by_user_and_token_true in Hd as Hd'. destruct Hd' as [Hu Ht].
    repeat split; try assumption.
    rewrite update_one_app_skip by assumption.
    unfold activated. rewrite Hu, Ht.
    destruct (decide (Document uid (Some tok) (Some "active")
                        (ExpiryAt (bson_datetime (now + 43200000000))) = d))
      as [He|Hne].
    + rewrite bool_decide_eq_false_2; [reflexivity | intros H; now apply H].
    + rewrite bool_decide_eq_true_2; [reflexivity | congruence].
Qed.

(** After [generate_uuid] the issued document is the first document of the
    user. *)
Lemma generate_uuid_split (uid : Z) (rand : N) (c : collection) :
  exists pre post,
    (generate_uuid uid rand c).2 = pre ++ issued uid rand :: post
    /\ Forall (fun d => by_user uid d = false) pre
    /\ user_id <$> (generate_uuid uid rand c).2
       = (if bool_decide (uid ∈ user_id <$> c)
          then user_id <$> c else (user_id <$> c) ++ [uid]).
Proof.
  destruct (generate_uuid_shape uid rand c)
    as [[Hall ->] | (pre & d & post & -> & Hpre & Hu & ->)]; simpl.
  - exists c, []. repeat split; [assumption|].
    rewrite bool_decide_eq_false_2; [now rewrite fmap_app|].
    intros Hin. apply list_elem_of_fmap in Hin as (d & Hd & Hin).
    rewrite Forall_forall in Hall. specialize (Hall d Hin).
    unfold by_user in Hall. apply Z.eqb_neq in Hall. congruence.
  - exists pre, post. repeat split; [assumption|].
    rewrite bool_decide_eq_true_2.
    + rewrite !fmap_app, !fmap_cons. simpl. now rewrite Hu.
    + rewrite fmap_app, fmap_cons, Hu. apply elem_of_app. right. left.
Qed.

Lemma by_user_false_and_token (uid : Z) (tok : string) (c : collection) :
  Forall (fun d => by_user uid d = false) c ->
  Forall (fun d => by_user_and_token uid tok d = false) c.
Proof.
  intros Hall. eapply Forall_impl; [exact Hall|].
  intros d Hd. unfold by_user_and_token.
  unfold by_user in Hd. now rewrite Hd.
Qed.

(** The validity check reads nothing but the first document of the user. *)
Lemma has_valid_token_find_one (uid : Z) (now : N) (c1 c2 : collection) :
  find_one (by_user uid) c1 = find_one (by_user uid) c2 ->
  (has_valid_token uid now c1).1 = (has_valid_token uid now c2).1.
Proof.
  intros Hfind. unfold has_valid_token. rewrite Hfind.
  destruct (find_one (by_user uid) c2) as [d|]; [|reflexivity].
  case_bool_decide; [|reflexivity]. now destruct (token_expiry d).
Qed.

(** Replacing a document of one user by another document of the same user
    does not change what a search for a different user finds. *)
Lemma find_one_replace (v : Z) (pre post : collection) (d d' : document) :
  by_user v d = false -> by_user v d' = false ->
  find_one (by_user v) (pre ++ d' :: post)
  = find_one (by_user v) (pre ++ d :: post).
Proof.
  intros Hd Hd'. induction pre as [|x pre IH]; simpl.
  - now rewrite Hd, Hd'.
  - now rewrite IH.
Qed.

(** X1. Issuing stores the token it returns: the first document of the user
    is then the issued one, inactive and without expiry, so the validity
    check fails right after an issue, whatever the store held before (even
    an active, unexpired token). *)
Theorem issue_then_lookup (uid : Z) (rand : N) (now : N) (c : collection) :
  find_one (by_user uid) (generate_uuid uid rand c).2
  = Some (Document uid (Some (generate_uuid uid rand c).1) (Some "inactive")
            ExpiryNull)
  /\ has_valid_token uid now (generate_uuid uid rand c).2
     = (Ok false, (generate_uuid uid rand c).2).
Proof.
  destruct (generate_uuid_split uid rand c) as (pre & post & Hc & Hpre & _).
  assert (Htok : (generate_uuid uid rand c).1 = uuid_str (uuid4 rand)).
  { unfold generate_uuid. now destruct (update_one_upsert _ _ _ c). }
  assert (Hfind : find_one (by_user uid) (generate_uuid uid rand c).2
                  = Some (issued uid rand)).
  { rewrite Hc. apply find_one_app_skip; [assumption|].
    unfold by_user. simpl. apply Z.eqb_refl. }
  split.
  - now rewrite Hfind, Htok.
  - unfold has_valid_token. now rewrite Hfind.
Qed.

(** X2. Round trip of the life cycle: the token returned by an issue
    activates at once for the same user, and from then on the validity check
    is true exactly before the stored expiry, which is twelve hours after the
    activation cut to the whole millisecond that the store keeps. So the
    token is valid at every instant up to twelve hours less one millisecond
    after the activation, and at no instant from twelve hours after it on.
    This holds whatever the store held before. *)
Theorem issue_activate_valid (uid : Z) (rand : N) (now : N) (c : collection) :
  exists c2,
    activate_token uid (generate_uuid uid rand c).1 now
      (generate_uuid uid rand c).2 = (true, c2)
    /\ (forall now',
          has_valid_token uid now' c2
          = (Ok (N.ltb now' (bson_datetime (now + 43200000000))), c2))
    /\ (forall now', (now' + 1000 <= now + 43200000000)%N ->
          has_valid_token uid now' c2 = (Ok true, c2))
    /\ (forall now', (now + 43200000000 <= now')%N ->
          has_valid_token uid now' c2 = (Ok false, c2)).
Proof.
  destruct (generate_uuid_split uid rand c) as (pre & post & Hc & Hpre & _).
  assert (Htok : (generate_uuid uid rand c).1 = uuid_str (uuid4 rand)).
  { unfold generate_uuid. now destruct (update_one_upsert _ _ _ c). }
  rewrite Htok, Hc.
  exists (pre ++ activated uid (uuid_str (uuid4 rand)) now :: post).
  assert (Hvalid : forall now',
            has_valid_token uid now'
              (pre ++ activated uid (uuid_str (uuid4 rand)) now :: post)
            = (Ok (N.ltb now' (bson_datetime (now + 43200000000))),
               pre ++ activated uid (uuid_str (uuid4 rand)) now :: post)).
  { intros now'. unfold has_valid_token.
    rewrite find_one_app_skip; [reflexivity | assumption |].
    unfold by_user. simpl. apply Z.eqb_refl. }
  pose proof (bson_datetime_bounds (now + 43200000000)) as Hb.
  split; [|split; [|split]].
  - unfold activate_token. rewrite timedelta_12_hours.
    rewrite update_one_app_skip.
    + rewrite decide_False by (unfold issued; simpl; congruence).
      reflexivity.
    + now apply by_user_false_and_token.
    + apply by_user_and_token_true. now split.
  - exact Hvalid.
  - intros now' Hearly. rewrite Hvalid. do 2 f_equal. apply N.ltb_lt. lia.
  - intros now' Hlate. rewrite Hvalid. do 2 f_equal. apply N.ltb_ge. lia.
Qed.

(** An instance: a token issued to user 7 in an empty store and activated
    1005 microseconds after the origin of time is valid twelve hours after
    the origin, and no longer 1005 microseconds later. *)
Lemma issue_activate_valid_witness :
  exists c2,
    activate_token 7 (generate_uuid 7 0 []).1 1005 (generate_uuid 7 0 []).2
    = (true, c2)
    /\ has_valid_token 7 43200000000 c2 = (Ok true, c2)
    /\ has_valid_token 7 43200001005 c2 = (Ok false, c2).
Proof.
  destruct (issue_activate_valid 7 0 1005 [])
    as (c2 & Hact & _ & Hearly & Hlate).
  exists c2. split; [exact Hact|]. split.
  - apply Hearly. lia.
  - apply Hlate. lia.
Defined.

(** X3. The token functions act on one user only: issuing or activating for
    [uid] changes neither the document that a search for another user [v]
    finds nor the answer of the validity check for [v]. *)
Theorem other_users_untouched (uid v : Z) (tok : string) (rand : N)
    (now now' : N) (c : collection) :
  v <> uid ->
  find_one (by_user v) (generate_uuid uid rand c).2 = find_one (by_user v) c
  /\ find_one (by_user v) (activate_token uid tok now c).2
     = find_one (by_user v) c
  /\ (has_valid_token v now' (generate_uuid uid rand c).2).1
     = (has_valid_token v now' c).1
  /\ (has_valid_token v now' (activate_token uid tok now c).2).1
     = (has_valid_token v now' c).1.
Proof.
  intros Hne.
  assert (Hother : forall d, user_id d = uid -> by_user v d = false).
  { intros d Hd. unfold by_user. apply Z.eqb_neq. congruence. }
  assert (Hgen : find_one (by_user v) (generate_uuid uid rand c).2
                 = find_one (by_user v) c).
  { destruct (generate_uuid_shape uid rand c)
      as [[_ ->] | (pre & d & post & -> & _ & Hu & ->)]; simpl.
    - apply find_one_app_no_match. constructor; [|constructor].
      now apply Hother.
    - apply find_one_replace; now apply Hother. }
  assert (Hact : find_one (by_user v) (activate_token uid tok now c).2
                 = find_one (by_user v) c).
  { destruct (activate_token_shape uid tok now c)
      as [[_ ->] | (pre & d & post & -> & _ & Hu & _ & ->)]; simpl.
    - reflexivity.
    - apply find_one_replace; now apply Hother. }
  repeat split; try assumption; now apply has_valid_token_find_one.
Qed.

(** An instance: user 8 issues and activates while user 7 holds a token. *)
Lemma other_users_untouched_witness :
  (has_valid_token 7 6
     (activate_token 8 "u" 5
        [Document 7 (Some "t") (Some "active") (ExpiryAt 10);
         Document 8 (Some "u") (Some "inactive") ExpiryNull]).2).1
  = (has_valid_token 7 6
       [Document 7 (Some "t") (Some "active") (ExpiryAt 10);
        Document 8 (Some "u") (Some "inactive") ExpiryNull]).1.
Proof.
  apply (other_users_untouched 8 7 "u" 0 5 6
           [Document 7 (Some "t") (Some "active") (ExpiryAt 10);
            Document 8 (Some "u") (Some "inactive") ExpiryNull]).
  lia.
Defined.

(** X4. Activation reports whether the document changed, not whether the
    token matched: once a token is active, presenting it again returns true
    only in a different millisecond (the stored expiry, kept to the
    millisecond, then moves); presenting it again within the same
    millisecond returns false, although the token is the right one. Either
    way the store ends as if the token had been activated once, at the later
    instant. *)
Theorem activate_twice (uid : Z) (tok : string) (now1 now2 : N)
    (c c1 : collection) :
  activate_token uid tok now1 c = (true, c1) ->
  activate_token uid tok now2 c1
  = (negb (N.eqb (bson_datetime now1) (bson_datetime now2)),
     (activate_token uid tok now2 c).2).
Proof.
  intros Hfirst.
  destruct (activate_token_shape uid tok now1 c)
    as [[_ Hno] | (pre & d & post & Hc & Hpre & Hu & Ht & Hrun)].
  { rewrite Hno in Hfirst. discriminate. }
  rewrite Hrun in Hfirst. injection Hfirst as _ <-.
  assert (Hq : by_user_and_token uid tok d = true)
    by (apply by_user_and_token_true; now split).
  rewrite Hc. unfold activate_token. rewrite timedelta_12_hours.
  rewrite !update_one_app_skip; try assumption.
  2:{ apply by_user_and_token_true. now split. }
  unfold activated. simpl. rewrite Hu, Ht. f_equal.
  rewrite !bson_datetime_expiry.
  destruct (N.eqb_spec (bson_datetime now1) (bson_datetime now2)) as [->|Hne].
  - now rewrite decide_True.
  - rewrite decide_False; [reflexivity|]. intros [= Heq]. lia.
Qed.

(** An instance: a token activated 5 microseconds after the origin of time
    and presented again 1 microsecond later, in the same millisecond, and
    1 millisecond later. *)
Lemma activate_twice_witness :
  activate_token 7 "t" 6
    [Document 7 (Some "t") (Some "active") (ExpiryAt 43200000000)]
  = (false, [Document 7 (Some "t") (Some "active") (ExpiryAt 43200000000)])
  /\ activate_token 7 "t" 1005
       [Document 7 (Some "t") (Some "active") (ExpiryAt 43200000000)]
     = (true, [Document 7 (Some "t") (Some "active") (ExpiryAt 43200001000)]).
Proof.
  split.
  - exact (activate_twice 7 "t" 5 6
             [Document 7 (Some "t") (Some "inactive") ExpiryNull]
             [Document 7 (Some "t") (Some "active") (ExpiryAt 43200000000)]
             eq_refl).
  - exact (activate_twice 7 "t" 5 1005
             [Document 7 (Some "t") (Some "inactive") ExpiryNull]
             [Document 7 (Some "t") (Some "active") (ExpiryAt 43200000000)]
             eq_refl).
Defined.

(** X5. Activation never adds, removes or reorders documents. Issuing keeps
    the documents of a user who has one in place, and adds exactly one
    document, at the end, for a user who has none. *)
Theorem token_functions_user_ids (uid : Z) (tok : string) (rand : N)
    (now : N) (c : collection) :
  user_id <$> (activate_token uid tok now c).2 = user_id <$> c
  /\ user_id <$> (generate_uuid uid rand c).2
     = (if bool_decide (uid ∈ user_id <$> c)
        then user_id <$> c else (user_id <$> c) ++ [uid]).
Proof.
  split.
  - rewrite activate_token_collection. now apply update_one_user_ids.
  - destruct (generate_uuid_split uid rand c) as (_ & _ & _ & _ & Hids).
    exact Hids.
Qed.

(** X6. A new issue replaces the token of the user: with at most one
    document per user, any other token value presented afterwards, the
    previous token included, activates nothing and changes nothing. *)
Theorem stale_token_after_issue (uid : Z) (tok : string) (rand : N)
    (now : N) (c : collection) :
  NoDup (user_id <$> c) ->
  tok <> (generate_uuid uid rand c).1 ->
  activate_token uid tok now (generate_uuid uid rand c).2
  = (false, (generate_uuid uid rand c).2).
Proof.
  intros Hnd Hstale.
  assert (Htok : (generate_uuid uid rand c).1 = uuid_str (uuid4 rand)).
  { unfold generate_uuid. now destruct (update_one_upsert _ _ _ c). }
  rewrite Htok in Hstale.
  destruct (generate_uuid_split uid rand c) as (pre & post & Hc & Hpre & Hids).
  assert (Hnd' : NoDup (user_id <$> (generate_uuid uid rand c).2)).
  { rewrite Hids. case_bool_decide as Hin; [assumption|].
    apply NoDup_app. repeat split; [assumption | | apply NoDup_singleton].
    intros x Hx Hx'. apply list_elem_of_singleton in Hx'. congruence. }
  rewrite Hc in Hnd' |- *.
  rewrite fmap_app, fmap_cons in Hnd'.
  apply NoDup_app in Hnd' as (_ & _ & Hnd').
  apply NoDup_cons in Hnd' as [Hnotin _]. simpl in Hnotin.
  unfold activate_token. rewrite update_one_no_match; [reflexivity|].
  apply Forall_app. split; [now apply by_user_false_and_token|].
  constructor.
  - unfold by_user_and_token, issued. simpl. rewrite Z.eqb_refl. simpl.
    apply bool_decide_eq_false_2. congruence.
  - apply Forall_forall. intros d Hd. unfold by_user_and_token.
    destruct (Z.eqb_spec (user_id d) uid) as [He|]; [|reflexivity].
    exfalso. apply Hnotin. rewrite <- He. now apply list_elem_of_fmap_2.
Qed.

(** An instance: the token ["t"] of user 7 after a second issue. *)
Lemma stale_token_after_issue_witness :
  activate_token 7 "t" 5
    (generate_uuid 7 0 [Document 7 (Some "t") (Some "inactive") ExpiryNull]).2
  = (false,
     (generate_uuid 7 0
        [Document 7 (Some "t") (Some "inactive") ExpiryNull]).2).
Proof.
  apply stale_token_after_issue.
  - simpl. apply NoDup_singleton.
  - vm_compute. discriminate.
Defined.

(** X7. The start command keeps the store within the reachable collections
    and, on a reachable collection, never lets an exception escape: it
    always ends with one of its four captions. *)
Theorem start_handler_reachable (command : list string) (uid : Z) (now : N)
    (rand : N) (c : collection) :
  reachable c ->
  reachable (start_handler command uid now rand c).2
  /\ exists reply, (start_handler command uid now rand c).1.1 = Ok reply.
Proof.
  intros Hr. unfold start_handler.
  destruct (activation_argument command) as [tok|].
  - pose proof (reachable_activate c uid tok now Hr) as Hr'.
    destruct (activate_token uid tok now c) as [ok c']. simpl in *.
    split; [exact Hr' | now eexists].
  - pose proof (reachable_Forall_active_has_expiry c Hr) as Hall.
    rewrite Forall_forall in Hall.
    unfold has_valid_token.
    destruct (find_one (by_user uid) c) as [d|] eqn:Hf.
    + apply find_one_Some in Hf as [Hd _].
      case_bool_decide as Hs.
      * destruct (Hall d Hd Hs) as [t ->].
        destruct (N.ltb now t).
        -- split; [exact Hr | now eexists].
        -- pose proof (reachable_issue c uid rand Hr) as Hr'.
           destruct (generate_uuid uid rand c) as [tok c'].
           split; [exact Hr' | now eexists].
      * pose proof (reachable_issue c uid rand Hr) as Hr'.
        destruct (generate_uuid uid rand c) as [tok c'].
        split; [exact Hr' | now eexists].
    + pose proof (reachable_issue c uid rand Hr) as Hr'.
      destruct (generate_uuid uid rand c) as [tok c'].
      split; [exact Hr' | now eexists].
Qed.

(** An instance: a plain start command on the empty store. *)
Lemma start_handler_reachable_witness :
  reachable (start_handler ["start"%string] 7 5 0 []).2
  /\ exists reply, (start_handler ["start"%string] 7 5 0 []).1.1 = Ok reply.
Proof. exact (start_handler_reachable _ 7 5 0 [] reachable_empty). Defined.

End TokenLifecycle.

(** ** Uploads: what they leave on the disk and what they let escape *)

Module UploadFacts.

Import Pipeline Scenarios MoreScenarios Traces PipelineFacts.

(** Unfolds the monad down to functions on worlds. *)
Ltac run_monad :=
  unfold try_finally, try_except, telegram, path_exists, os_remove,
    write_file, get_video_metadata, logger_error, log, bind, ret, raise;
  simpl.

(** The outcome of [upload_file] and the disk it leaves. *)
Lemma upload_file_run (E : env) (path : string) (status : message)
    (w : world) :
  exists w',
    upload_file E path status w
    = (if send_video E path && copy_message E path || edit_text E status
       then Ok tt else Raise RPCError, w')
    /\ disk w'
       = match ffmpeg_thumbnail E path with
         | SpawnError => disk w
         | Exited _ _ => delete (path +:+ ".jpg") (disk w)
         end.
Proof.
  unfold upload_file, generate_thumbnail. run_monad.
  destruct (ffmpeg_thumbnail E path) as [|rc [size|]]; simpl.
  - destruct (ffprobe_metadata E path) as [|rcm [metadata|]],
        (send_video E path), (copy_message E path), (edit_text E status);
      simpl; eexists; split; reflexivity.
  - destruct (ffprobe_metadata E path) as [|rcm [metadata|]],
        (send_video E path), (copy_message E path), (edit_text E status);
      repeat (rewrite lookup_insert_eq; simpl);
      eexists; (split; [reflexivity|]); simpl; apply delete_insert_eq.
  - destruct (disk w !! (path +:+ ".jpg")) as [size|] eqn:Hthumb; simpl.
    + destruct (ffprobe_metadata E path) as [|rcm [metadata|]],
        (send_video E path), (copy_message E path),
        (edit_text E status);
        simpl; repeat (rewrite Hthumb; simpl); eexists; split; reflexivity.
    + destruct (ffprobe_metadata E path) as [|rcm [metadata|]],
        (send_video E path), (copy_message E path),
        (edit_text E status);
        simpl; eexists; (split; [reflexivity|]); simpl;
        symmetry; now apply delete_id.
Qed.

Lemma thumbnail_differs (path : string) : path <> path +:+ ".jpg".
Proof.
  intros Heq. apply (f_equal String.length) in Heq.
  rewrite PyFacts.length_app in Heq. simpl in Heq. lia.
Qed.

(** An instance for the lemma on split uploads: the video of 5 GiB with a
    working environment. *)
Lemma split_and_upload_removes_parts_witness :
  exists w',
    split_and_upload (all_fine false) video status_message fetched
    = ((for_each (fun part => upload_file (all_fine false) part status_message)
          ["/d/v.part001.mp4"; "/d/v.part002.mp4"; "/d/v.part003.mp4"]%string
          (snd (split_video (all_fine false) video fetched))).1, w')
    /\ forall part,
         part ∈ ["/d/v.part001.mp4"; "/d/v.part002.mp4";
                 "/d/v.part003.mp4"]%string ->
         disk w' !! part = None.
Proof.
  apply (split_and_upload_removes_parts (all_fine false) video status_message
           fetched).
  vm_compute. reflexivity.
Defined.

(** X9. An upload failure is reported, not propagated: [upload_file]
    returns normally when the video is sent and mirrored, and also when
    either step fails but the failure notice can be shown on the status
    message. The only exception that can leave it is the one raised by that
    notice itself. The thumbnail step never makes it fail. *)
Theorem upload_file_outcome (E : env) (path : string) (status : message)
    (w : world) :
  fst (upload_file E path status w)
  = if send_video E path && copy_message E path || edit_text E status
    then Ok tt else Raise RPCError.
Proof.
  destruct (upload_file_run E path status w) as (w' & -> & _). reflexivity.
Qed.

(** X10. [upload_file] leaves the disk as it found it except for the
    thumbnail path (the file path followed by [.jpg]): the uploaded file
    itself is never removed by it, and the thumbnail path is free afterwards
    whenever the thumbnail process could be started, also when a file of
    that name was there before the upload. *)
Theorem upload_file_disk (E : env) (path : string) (status : message)
    (w : world) :
  (forall q, q <> path +:+ ".jpg" ->
     disk (snd (upload_file E path status w)) !! q = disk w !! q)
  /\ disk (snd (upload_file E path status w)) !! path = disk w !! path
  /\ (ffmpeg_thumbnail E path <> SpawnError ->
      disk (snd (upload_file E path status w)) !! (path +:+ ".jpg") = None).
Proof.
  destruct (upload_file_run E path status w) as (w' & -> & Hdisk). simpl.
  assert (Hframe : forall q, q <> path +:+ ".jpg" ->
            disk w' !! q = disk w !! q).
  { intros q Hq. rewrite Hdisk.
    destruct (ffmpeg_thumbnail E path); [reflexivity|].
    now rewrite lookup_delete_ne. }
  split; [exact Hframe|]. split; [apply Hframe, thumbnail_differs|].
  intros Hspawn. rewrite Hdisk.
  destruct (ffmpeg_thumbnail E path); [contradiction|].
  apply lookup_delete_eq.
Qed.

(** An instance: a file named like the thumbnail was on the disk before the
    upload, and it is gone afterwards. *)
Lemma upload_file_disk_witness :
  disk (snd (upload_file (all_fine false) video status_message
               (World {[ video := 5; "/d/v.mp4.jpg"%string := 7 ]} [])))
    !! "/d/v.mp4.jpg"%string = None.
Proof.
  apply (upload_file_disk (all_fine false) video status_message
           (World {[ video := 5; "/d/v.mp4.jpg"%string := 7 ]} [])).
  discriminate.
Defined.

(** X11. [direct_upload] ends exactly as its upload ends, and always with
    the file off the disk: the removal is attempted after success and after
    failure alike, and a failed removal is only logged. No other file than
    the uploaded one and its thumbnail is touched. *)
Theorem direct_upload_run (E : env) (path : string) (status : message)
    (w : world) :
  fst (direct_upload E path status w) = fst (upload_file E path status w)
  /\ disk (snd (direct_upload E path status w)) !! path = None
  /\ (forall q, q <> path -> q <> path +:+ ".jpg" ->
        disk (snd (direct_upload E path status w)) !! q = disk w !! q).
Proof.
  unfold direct_upload, try_finally.
  destruct (upload_file_run E path status w) as (w1 & Hup & Hdisk1).
  rewrite Hup.
  destruct (safe_remove_run path w1) as (w2 & Hrm & Hdisk2).
  rewrite Hrm. simpl. split; [reflexivity|]. split.
  - rewrite Hdisk2. apply lookup_delete_eq.
  - intros q Hq Hthumb. rewrite Hdisk2, lookup_delete_ne by congruence.
    rewrite Hdisk1. destruct (ffmpeg_thumbnail E path); [reflexivity|].
    now rewrite lookup_delete_ne.
Qed.

(** An instance: another file of the download directory stays in place. *)
Lemma direct_upload_run_witness :
  disk (snd (direct_upload (all_fine false) video status_message
               (World {[ video := 5; "/d/other"%string := 7 ]} [])))
    !! "/d/other"%string = Some 7.
Proof.
  exact (proj2 (proj2 (direct_upload_run (all_fine false) video status_message
           (World {[ video := 5; "/d/other"%string := 7 ]} [])))
           "/d/other"%string ltac:(discriminate) ltac:(discriminate)).
Defined.

(** The final cleanup never raises and never adds a file; when both
    deletions return, the first file of the download is off the disk. *)
Lemma cleanup_run (E : env) (d : download) (status original : message)
    (w : world) :
  exists w',
    cleanup E d status original w = (Ok tt, w')
    /\ (forall q, disk w !! q = None -> disk w' !! q = None)
    /\ (delete_message E status = true ->
        delete_message E original = true ->
        forall path rest, files d = path :: rest -> disk w' !! path = None).
Proof.
  unfold cleanup, first_file_path. run_monad.
  destruct (delete_message E status); simpl.
  2:{ eexists. split; [reflexivity|]. split; [auto | discriminate]. }
  destruct (delete_message E original); simpl.
  2:{ eexists. split; [reflexivity|]. split; [auto | discriminate]. }
  destruct (files d) as [|path rest]; simpl.
  { eexists. split; [reflexivity|]. split; [auto | discriminate]. }
  destruct (disk w !! path) as [size|] eqn:Hp; simpl;
    repeat (rewrite Hp; simpl).
  - eexists. split; [reflexivity|]. simpl. split.
    + intros q Hq. destruct (decide (path = q)) as [->|Hne];
        [apply lookup_delete_eq | now rewrite lookup_delete_ne].
    + intros _ _ path0 rest0 [= <- _]. apply lookup_delete_eq.
  - eexists. split; [reflexivity|]. simpl. split; [auto|].
    now intros _ _ path0 rest0 [= <- _].
Qed.

(** X12. The pipeline after the download ends as [handle_upload] ends: the
    final cleanup runs in every case and neither masks the outcome of the
    upload phase nor adds an error of its own. When both message deletions
    return, the fetched file is off the disk at the end, whether the upload
    phase succeeded or raised. *)
Theorem upload_then_cleanup_run (E : env) (d : download)
    (status original : message) (w : world) :
  fst (upload_then_cleanup E d status original w)
  = fst (handle_upload E d status w)
  /\ (delete_message E status = true ->
      delete_message E original = true ->
      forall path rest, files d = path :: rest ->
        disk (snd (upload_then_cleanup E d status original w)) !! path = None).
Proof.
  unfold upload_then_cleanup, try_finally.
  destruct (handle_upload E d status w) as [r w1].
  destruct (cleanup_run E d status original w1) as (w2 & -> & _ & Hgone).
  simpl. split; [reflexivity | exact Hgone].
Qed.

(** An instance: the split fails, the error reaches the caller of the
    pipeline, and the fetched video is removed all the same. *)
Lemma upload_then_cleanup_run_witness :
  disk (snd (upload_then_cleanup second_copy_spawn_fails the_download
               status_message original_message fetched)) !! video = None.
Proof.
  exact (proj2 (upload_then_cleanup_run second_copy_spawn_fails the_download
                  status_message original_message fetched)
           eq_refl eq_refl video [] eq_refl).
Defined.

(** The Telegram calls of one upload. *)
Lemma upload_file_trace (E : env) (path : string) (status : message)
    (w : world) :
  exists thumb,
    telegram_calls (trace (snd (upload_file E path status w)))
    = telegram_calls (trace w)
        ++ SendVideo path thumb
           :: (if send_video E path then [CopyMessage path] else [])
        ++ (if send_video E path && copy_message E path then []
            else [EditText status])
    /\ sent_paths (trace (snd (upload_file E path status w)))
       = sent_paths (trace w) ++ [path].
Proof.
  unfold upload_file, generate_thumbnail. run_monad.
  unfold telegram_calls, sent_paths.
  destruct (ffmpeg_thumbnail E path) as [|rc [size|]]; simpl.
  - exists None.
    destruct (ffprobe_metadata E path) as [|rcm [metadata|]],
        (send_video E path), (copy_message E path), (edit_text E status);
      simpl; rewrite ?List.filter_app, ?omap_app; simpl;
      rewrite <- ?app_assoc, ?app_nil_r; split; reflexivity.
  - exists (Some (path +:+ ".jpg")).
    destruct (ffprobe_metadata E path) as [|rcm [metadata|]],
        (send_video E path), (copy_message E path), (edit_text E status);
      repeat (rewrite lookup_insert_eq; simpl);
      rewrite ?List.filter_app, ?omap_app; simpl;
      rewrite <- ?app_assoc, ?app_nil_r; split; reflexivity.
  - destruct (disk w !! (path +:+ ".jpg")) as [size|] eqn:Hthumb; simpl.
    + exists (Some (path +:+ ".jpg")).
      destruct (ffprobe_metadata E path) as [|rcm [metadata|]],
        (send_video E path), (copy_message E path),
        (edit_text E status);
        simpl; repeat (rewrite Hthumb; simpl);
        rewrite ?List.filter_app, ?omap_app; simpl;
        rewrite <- ?app_assoc, ?app_nil_r; split; reflexivity.
    + exists None.
      destruct (ffprobe_metadata E path) as [|rcm [metadata|]],
        (send_video E path), (copy_message E path),
        (edit_text E status);
        simpl; rewrite ?List.filter_app, ?omap_app; simpl;
        rewrite <- ?app_assoc, ?app_nil_r; split; reflexivity.
Qed.

(** X13. One upload makes exactly one attempt to send the video, with no
    retry. The mirror copy is attempted exactly when the send returned, and
    the failure notice is shown on the status message exactly when the send
    or the copy failed. These are all the Telegram calls of an upload, in
    this order. *)
Theorem upload_file_telegram_calls (E : env) (path : string)
    (status : message) (w : world) :
  exists thumb,
    telegram_calls (trace (snd (upload_file E path status w)))
    = telegram_calls (trace w)
        ++ SendVideo path thumb
           :: (if send_video E path then [CopyMessage path] else [])
        ++ (if send_video E path && copy_message E path then []
            else [EditText status]).
Proof.
  destruct (upload_file_trace E path status w) as (thumb & Hcalls & _).
  now exists thumb.
Qed.


(** An instance: three parts, and the failure of the second one cannot be
    reported; the third part is not sent. *)
Example for_each_upload_stops :
  for_each (fun part => upload_file second_upload_fails part status_message)
    ["/d/v.part001.mp4"; "/d/v.part002.mp4"; "/d/v.part003.mp4"]%string
    fetched
  = (Raise RPCError,
     snd (for_each
            (fun part => upload_file second_upload_fails part status_message)
            ["/d/v.part001.mp4"; "/d/v.part002.mp4"; "/d/v.part003.mp4"]%string
            fetched))
  /\ sent_paths
       (trace (snd (for_each
                      (fun part => upload_file second_upload_fails part
                                     status_message)
                      ["/d/v.part001.mp4"; "/d/v.part002.mp4";
                       "/d/v.part003.mp4"]%string fetched)))
     = ["/d/v.part001.mp4"; "/d/v.part002.mp4"]%string.
Proof. split; vm_compute; reflexivity. Qed.

End UploadFacts.

(** ** Splitting: part names, part count, errors and the disk *)

Module SplitFacts.

Import Pipeline Scenarios MoreScenarios PyFacts PipelineFacts.

(** *** Strings *)

Lemma take_drop (n : nat) (s : string) : take n s +:+ drop n s = s.
Proof.
  revert s. induction n as [|n IH]; intros [|a s]; try reflexivity.
  cbn [take drop]. rewrite app_cons. now rewrite IH.
Qed.

Lemma drop_drop (n m : nat) (s : string) : drop n (drop m s) = drop (m + n) s.
Proof.
  revert s. induction m as [|m IH]; intros s; [reflexivity|].
  destruct s as [|a s]; [now destruct n|]. apply IH.
Qed.

Lemma contains_drop (c : ascii) (n : nat) (s : string) :
  contains c s = false -> contains c (drop n s) = false.
Proof.
  revert s. induction n as [|n IH]; intros [|a s]; try easy.
  cbn [contains drop]. destruct (Ascii.eqb a c); [discriminate | apply IH].
Qed.

Lemma app_inv_head (s t u : string) : s +:+ t = s +:+ u -> t = u.
Proof.
  induction s as [|a s IH]; [easy|]. rewrite !app_cons. intros [= H]. auto.
Qed.

Lemma app_inv_tail (s t u : string) : s +:+ u = t +:+ u -> s = t.
Proof.
  intros Heq.
  assert (Hlen : String.length s = String.length t).
  { apply (f_equal String.length) in Heq. rewrite !length_app in Heq. lia. }
  revert t Heq Hlen. induction s as [|a s IH]; intros [|b t] Heq Hlen;
    try discriminate; [reflexivity|].
  rewrite !app_cons in Heq. injection Heq as -> Heq.
  f_equal. apply IH; [exact Heq | simpl in Hlen; lia].
Qed.

(** *** [rfind] *)

Lemma rfind_None (c : ascii) (s : string) :
  rfind c s = None -> contains c s = false.
Proof.
  induction s as [|a s IH]; [reflexivity|]. cbn [rfind contains].
  destruct (rfind c s); [discriminate|].
  destruct (Ascii.eqb a c); [discriminate | auto].
Qed.

(** [rfind] points at an occurrence of the character, and none follows. *)
Lemma rfind_Some (c : ascii) (s : string) (i : nat) :
  rfind c s = Some i ->
  (exists t, drop i s = String c t) /\ contains c (drop (S i) s) = false.
Proof.
  revert i. induction s as [|a s IH]; intros i; [discriminate|].
  cbn [rfind]. destruct (rfind c s) as [j|] eqn:Hr.
  - intros [= <-]. exact (IH j eq_refl).
  - destruct (Ascii.eqb_spec a c) as [->|]; [|discriminate].
    intros [= <-]. split; [now exists s | now apply rfind_None].
Qed.

(** *** [os.path.splitext] *)

Lemma string_app_nil_r (s : string) : s +:+ "" = s.
Proof.
  induction s as [|a s IH]; [reflexivity|]. rewrite app_cons. now rewrite IH.
Qed.

Lemma splitext_join (p : string) : fst (splitext p) +:+ snd (splitext p) = p.
Proof.
  unfold splitext. destruct (rfind "." p) as [dotIndex|].
  - destruct (_ && _); simpl; [apply take_drop | apply string_app_nil_r].
  - simpl. apply string_app_nil_r.
Qed.

Lemma drop_S (n : nat) (s t : string) (a : ascii) :
  drop n s = String a t -> drop (S n) s = t.
Proof.
  revert s. induction n as [|n IH]; intros [|b s]; try discriminate.
  - now intros [= _ ->].
  - apply IH.
Qed.

(** X16. [os.path.splitext] loses nothing: root and extension put together
    give the path back. The extension is empty, or it is a dot followed by
    characters among which there is neither a dot nor a slash, so it always
    belongs to the last component of the path. *)
Theorem splitext_roundtrip (p : string) :
  fst (splitext p) +:+ snd (splitext p) = p
  /\ (snd (splitext p) = ""%string
      \/ exists t,
           snd (splitext p) = String "." t
           /\ contains "." t = false /\ contains "/" t = false).
Proof.
  split; [apply splitext_join|].
  unfold splitext.
  destruct (rfind "." p) as [dotIndex|] eqn:Hdot; [|now left].
  destruct (Nat.leb _ dotIndex && _) eqn:Hcond; [|now left].
  right. apply andb_true_iff in Hcond as [Hle _]. apply Nat.leb_le in Hle.
  destruct (rfind_Some _ _ _ Hdot) as [[t Ht] Hlast].
  exists t. simpl. rewrite (drop_S _ _ _ _ Ht) in Hlast.
  split; [exact Ht|]. split; [exact Hlast|].
  rewrite <- (drop_S _ _ _ _ Ht).
  destruct (rfind "/" p) as [sepIndex|] eqn:Hsep.
  - destruct (rfind_Some _ _ _ Hsep) as [_ Hnone].
    replace (S dotIndex) with (S sepIndex + (dotIndex - sepIndex))%nat by lia.
    rewrite <- drop_drop. now apply contains_drop.
  - apply contains_drop. now apply rfind_None.
Qed.

(** *** Part names *)

Lemma part_path_inj (p : string) (i j : nat) :
  part_path p i = part_path p j -> i = j.
Proof.
  unfold part_path. intros Heq.
  apply app_inv_head, app_inv_head, app_inv_tail in Heq.
  apply (f_equal int_of_digits) in Heq.
  rewrite !int_of_digits_format_03d in Heq. injection Heq as Heq. lia.
Qed.

Lemma part_path_differs (p : string) (i : nat) : part_path p i <> p.
Proof.
  unfold part_path. intros Heq.
  pose proof (eq_trans Heq (eq_sym (splitext_join p))) as Hjoin.
  apply app_inv_head in Hjoin. apply (f_equal String.length) in Hjoin.
  rename Hjoin into Heq'. clear Heq. rename Heq' into Heq.
  rewrite !length_app in Heq. simpl in Heq. lia.
Qed.

(** X15. The parts of one file have pairwise different paths, whatever
    their number, and none of them is the path of the file itself: a stream
    copy, which overwrites its output, never overwrites the input or another
    part. *)
Theorem part_paths_distinct (p : string) (n : nat) :
  NoDup (part_path p <$> seq 0 n)
  /\ (p ∉ part_path p <$> seq 0 n).
Proof.
  split.
  - apply NoDup_fmap_2_strong; [|apply NoDup_seq].
    intros i j _ _. apply part_path_inj.
  - intros Hin. apply list_elem_of_fmap in Hin as (i & Hi & _).
    symmetry in Hi. exact (part_path_differs p i Hi).
Qed.

(** *** Part count *)

(** From 2^53 on, the float nearest to an integer is itself at least 2^53. *)
Lemma round53_large (a : Z) : 2 ^ 53 <= a -> 2 ^ 53 <= round53 a.
Proof.
  intros Ha. unfold round53.
  destruct (Z.ltb_spec a (2 ^ 53)) as [Hlt|_]; [lia|].
  assert (Hpos : 0 < a) by lia.
  pose proof (Z.log2_spec a Hpos) as [Hlow _].
  assert (Hlog : 53 <= Z.log2 a).
  { rewrite <- (Z.log2_pow2 53) by lia. now apply Z.log2_le_mono. }
  set (e := Z.log2 a - 52) in *. assert (He : 0 < e) by lia.
  rewrite Z.shiftr_div_pow2 by lia.
  assert (Hq : 2 ^ 52 <= a / 2 ^ e).
  { apply Z.div_le_lower_bound; [apply Z.pow_pos_nonneg; lia|].
    rewrite <- Z.pow_add_r by lia.
    replace (e + 52) with (Z.log2 a) by lia. exact Hlow. }
  assert (Hpow : 2 ^ 1 <= 2 ^ e) by (apply Z.pow_le_mono_r; lia).
  assert (Hshift : forall x, 2 ^ 52 <= x -> 2 ^ 53 <= Z.shiftl x e).
  { intros x Hx. rewrite Z.shiftl_mul_pow2 by lia.
    change (2 ^ 53) with (2 ^ 52 * 2 ^ 1). apply Z.mul_le_mono_nonneg; lia. }
  destruct (_ || _); apply Hshift; lia.
Qed.

(** X17. Whenever [handle_upload] takes the split route, [split_video]
    plans at least two parts, and at least three when the ceiling is 4 GiB:
    the file is never passed on as a single part. *)
Theorem split_route_part_count (E : env) (file_size : Z) :
  needs_split E file_size = true ->
  2 <= ceil_truediv file_size DEFAULT_SPLIT_SIZE
  /\ (user_client E = true ->
      3 <= ceil_truediv file_size DEFAULT_SPLIT_SIZE).
Proof.
  unfold needs_split, split_size, ceil_truediv. intros Hsplit.
  apply Z.ltb_lt in Hsplit.
  change DEFAULT_SPLIT_SIZE with (2 ^ 31) in *.
  change VIP_SPLIT_SIZE with (2 ^ 32) in *.
  assert (Hround : file_size < 2 ^ 53 /\ round53 file_size = file_size
                   \/ 2 ^ 53 <= round53 file_size).
  { destruct (Z.lt_ge_cases file_size (2 ^ 53)) as [Hlt|Hge].
    - left. split; [exact Hlt|]. unfold round53.
      apply Z.ltb_lt in Hlt. now rewrite Hlt.
    - right. now apply round53_large. }
  split.
  - apply Z.div_le_lower_bound; [lia|].
    destruct Hround as [[_ ->]|Hbig]; destruct (user_client E); lia.
  - intros Hvip. rewrite Hvip in Hsplit.
    apply Z.div_le_lower_bound; [lia|].
    destruct Hround as [[_ ->]|Hbig]; lia.
Qed.

(** An instance: the video of 5 GiB under the 4 GiB ceiling. *)
Lemma split_route_part_count_witness :
  3 <= ceil_truediv (5 * GiB) DEFAULT_SPLIT_SIZE.
Proof.
  exact (proj2 (split_route_part_count (all_fine true) (5 * GiB) eq_refl)
           eq_refl).
Defined.

(** *** Errors and the disk *)

(** The loop writes part paths only, and raises [OSError] only. *)
Lemma split_loop_effects (E : env) (path : string) (dpp : float) (n i : nat)
    (acc : list string) (w w' : world) (r : result (list string)) :
  split_loop E path dpp n i acc w = (r, w') ->
  (forall q, (forall k, q <> part_path path k) -> disk w' !! q = disk w !! q)
  /\ (forall e, r = Raise e -> e = OSError).
Proof.
  revert i acc w. induction n as [|n IH]; intros i acc w.
  - intros [= <- <-]. split; [reflexivity | discriminate].
  - cbn [split_loop]. unfold bind at 1. unfold log at 1.
    destruct (ffmpeg_copy E (part_cmd path dpp i)) as [|rc written].
    + intros [= <- <-]. split; [reflexivity | now intros e [= <-]].
    + unfold bind at 1.
      destruct written as [size|]; cbn [write_file];
        intros Hrest; apply IH in Hrest as [Hdisk Hraise];
        (split; [|exact Hraise]); intros q Hq; rewrite (Hdisk q Hq); simpl;
        [now rewrite lookup_insert_ne by (apply not_eq_sym, Hq) | reflexivity].
Qed.

(** The body of [split_video], before its handler logs and raises again. *)
Lemma split_video_body (E : env) (path : string) (w w' : world)
    (r : result (list string)) :
  split_video E path w = (r, w') ->
  (forall q, (forall k, q <> part_path path k) -> disk w' !! q = disk w !! q)
  /\ (forall e, r = Raise e ->
        e ∈ [OSError; ValueError; FileNotFoundError; ZeroDivisionError]
        /\ exists t, trace w' = t ++ [LogError "Video splitting failed"]).
Proof.
  unfold split_video, try_except.
  unfold bind at 1. unfold log at 1. unfold bind at 1.
  destruct (ffprobe_duration E path) as [|rc [total|]].
  - intros [= <- <-]. split; [reflexivity|].
    intros e [= <-]. split; [set_solver | now eexists].
  - unfold ret at 1. unfold bind at 1. unfold getsize at 1. simpl.
    destruct (disk w !! path) as [size|].
    + unfold bind at 1.
      destruct (ceil_truediv size DEFAULT_SPLIT_SIZE =? 0).
      * intros [= <- <-]. split; [reflexivity|].
        intros e [= <-]. split; [set_solver | now eexists].
      * unfold ret at 1.
        destruct (split_loop E path _ _ 0 [] _) as [[l|e0] w1] eqn:Hloop;
          apply split_loop_effects in Hloop as [Hdisk Hraise].
        -- intros [= <- <-]. split; [exact Hdisk | discriminate].
        -- intros [= <- <-]. split; [exact Hdisk|].
           intros e [= <-]. rewrite (Hraise e0 eq_refl).
           split; [set_solver | now eexists].
    + intros [= <- <-]. split; [reflexivity|].
      intros e [= <-]. split; [set_solver | now eexists].
  - intros [= <- <-]. split; [reflexivity|].
    intros e [= <-]. split; [set_solver | now eexists].
Qed.

(** X18. Whether it returns or raises, [split_video] changes no file other
    than its own parts: every other path keeps its file (or stays free), and
    in particular the file being split is still there, unchanged. *)
Theorem split_video_disk (E : env) (path : string) (w : world) :
  (forall q, (forall k, q <> part_path path k) ->
     disk (snd (split_video E path w)) !! q = disk w !! q)
  /\ disk (snd (split_video E path w)) !! path = disk w !! path.
Proof.
  destruct (split_video E path w) as [r w'] eqn:Hrun.
  apply split_video_body in Hrun as [Hdisk _]. simpl.
  split; [exact Hdisk|]. apply Hdisk.
  intros k Heq. exact (part_path_differs path k (eq_sym Heq)).
Qed.

(** An instance: another file of the directory stays in place. *)
Lemma split_video_disk_witness :
  disk (snd (split_video (all_fine false) video
               (World {[ video := 5 * GiB; "/d/other"%string := 7 ]} [])))
    !! "/d/other"%string = Some 7.
Proof.
  rewrite (proj1 (split_video_disk (all_fine false) video
                    (World {[ video := 5 * GiB; "/d/other"%string := 7 ]} []))
             "/d/other"%string); [reflexivity|].
  intros k Heq. apply (f_equal (String.get 3)) in Heq.
  unfold part_path in Heq. vm_compute in Heq. discriminate.
Defined.

(** X14. [split_video] fails in four ways only: a process that cannot be
    started ([OSError]), a probe output that is not a number
    ([ValueError]), a file that is not on the disk ([FileNotFoundError]),
    and an empty file, for which the part count is zero and the division of
    the duration raises ([ZeroDivisionError]) before any stream copy is
    started. Each failure is logged once, as the last entry, and raised
    again unchanged. *)
Theorem split_video_errors (E : env) (path : string) (w : world) :
  (forall e w', split_video E path w = (Raise e, w') ->
     e ∈ [OSError; ValueError; FileNotFoundError; ZeroDivisionError]
     /\ exists t, trace w' = t ++ [LogError "Video splitting failed"])
  /\ (forall rc total,
        ffprobe_duration E path = Exited rc (Some total) ->
        disk w !! path = Some 0 ->
        split_video E path w
        = (Raise ZeroDivisionError,
           World (disk w)
             (trace w ++ [FfprobeDuration path;
                          LogError "Video splitting failed"]))).
Proof.
  split.
  - intros e w' Hrun. apply split_video_body in Hrun as [_ Hraise].
    now apply Hraise.
  - intros rc total Hprobe Hsize.
    unfold split_video, try_except, bind, log, getsize, ret, raise,
      logger_error. simpl.
    rewrite Hprobe. simpl. rewrite Hsize. simpl.
    now rewrite <- app_assoc.
Qed.

(** An instance: an empty file on the disk. *)
Lemma split_video_errors_witness :
  fst (split_video (all_fine false) video empty_video)
  = Raise ZeroDivisionError.
Proof.
  rewrite (proj2 (split_video_errors (all_fine false) video empty_video)
             0 90%float eq_refl eq_refl).
  reflexivity.
Defined.

End SplitFacts.

(** ** Progress reporting *)

Module ProgressFacts.

Import Progress PyFacts.

Lemma round53_small (z : Z) : z < 2 ^ 53 -> round53 z = z.
Proof. intros Hz. unfold round53. apply Z.ltb_lt in Hz. now rewrite Hz. Qed.

Lemma float_of_Z_small (size : Z) :
  0 <= size < 2 ^ 53 -> float_of_Z size = Some size.
Proof.
  intros [Hpos Hlt]. unfold float_of_Z.
  rewrite Z.abs_eq, round53_small by assumption.
  assert (Hbig : 2 ^ 53 <= 2 ^ 1024) by (apply Z.pow_le_mono_r; lia).
  rewrite (proj2 (Z.leb_gt _ _)) by lia.
  now rewrite (proj2 (Z.ltb_ge _ _)) by lia.
Qed.

Lemma round_half_even_1 (a : Z) : round_half_even a 1 = a.
Proof.
  unfold round_half_even. now rewrite Z.mod_1_r, Z.div_1_r.
Qed.

Lemma format_2f_int (size : Z) :
  0 <= size < 2 ^ 53 ->
  format_2f (Int size) = Some (decimal_2 (100 * size)).
Proof.
  intros Hsize. unfold format_2f, format_2f_float.
  rewrite (float_of_Z_small size Hsize). simpl.
  rewrite (proj2 (Z.ltb_ge _ _)) by lia.
  rewrite Z.abs_eq by lia. change (1024 ^ 0) with 1.
  now rewrite round_half_even_1.
Qed.

Lemma format_2f_float_nonneg (m : Z) (k : nat) :
  0 <= m ->
  format_2f (Float m k)
  = Some (decimal_2 (round_half_even (100 * m) (1024 ^ Z.of_nat k))).
Proof.
  intros Hm. unfold format_2f, format_2f_float.
  rewrite (proj2 (Z.ltb_ge _ _)) by lia. now rewrite Z.abs_eq by lia.
Qed.

Lemma div_1024_int (size : Z) :
  0 <= size < 2 ^ 53 -> div_1024 (Int size) = Some (Float size 1).
Proof.
  intros [Hpos Hlt]. unfold div_1024.
  rewrite Z.abs_eq, round53_small by assumption.
  assert (Hbig : 2 ^ 53 <= 2 ^ 1034) by (apply Z.pow_le_mono_r; lia).
  rewrite (proj2 (Z.leb_gt _ _)) by lia.
  now rewrite (proj2 (Z.ltb_ge _ _)) by lia.
Qed.

(** The loop on a float that is already at least 1024 in the current unit
    moves on to the next unit. *)
Lemma format_size_loop_next (unit : string) (units : list string) (m : Z)
    (k : nat) :
  1024 ^ Z.of_nat (S k) <= m ->
  format_size_loop (unit :: units) (Float m k)
  = format_size_loop units (Float m (S k)).
Proof.
  intros Hm. cbn [format_size_loop lt_1024 div_1024].
  now rewrite (proj2 (Z.ltb_ge _ _)) by exact Hm.
Qed.

(** The loop stops at the first unit in which the value is below 1024. *)
Lemma format_size_loop_stop (unit : string) (units : list string) (m : Z)
    (k : nat) :
  0 <= m < 1024 ^ Z.of_nat (S k) ->
  format_size_loop (unit :: units) (Float m k)
  = Some (decimal_2 (round_half_even (100 * m) (1024 ^ Z.of_nat k))
            +:+ " " +:+ unit).
Proof.
  intros [Hpos Hm]. cbn [format_size_loop lt_1024].
  rewrite (proj2 (Z.ltb_lt _ _)) by exact Hm.
  now rewrite format_2f_float_nonneg by exact Hpos.
Qed.

(** X19. [format_size] picks the unit by the size alone, with thresholds at
    the powers of 1024, and prints the size divided by the matching power,
    rounded to two decimals: bytes below 1024 (always with [.00]), then KB,
    MB and GB, and TB for everything from 1024^4 on, without any further
    unit. Stated for sizes that a float holds exactly (below 2^53). *)
Theorem format_size_units (size : Z) :
  0 <= size < 2 ^ 53 ->
  (size < 1024 ->
   format_size size = Some (decimal_2 (100 * size) +:+ " B"))
  /\ (1024 <= size < 1024 ^ 2 ->
      format_size size
      = Some (decimal_2 (round_half_even (100 * size) 1024) +:+ " KB"))
  /\ (1024 ^ 2 <= size < 1024 ^ 3 ->
      format_size size
      = Some (decimal_2 (round_half_even (100 * size) (1024 ^ 2)) +:+ " MB"))
  /\ (1024 ^ 3 <= size < 1024 ^ 4 ->
      format_size size
      = Some (decimal_2 (round_half_even (100 * size) (1024 ^ 3)) +:+ " GB"))
  /\ (1024 ^ 4 <= size ->
      format_size size
      = Some (decimal_2 (round_half_even (100 * size) (1024 ^ 4)) +:+ " TB")).
Proof.
  intros Hsize.
  assert (Hstart : 1024 <= size ->
            format_size size
            = format_size_loop ["KB"; "MB"; "GB"]%string (Float size 1)).
  { intros Hge. unfold format_size. cbn [format_size_loop lt_1024].
    rewrite (proj2 (Z.ltb_ge _ _)) by exact Hge.
    now rewrite div_1024_int by exact Hsize. }
  split; [|split; [|split; [|split]]].
  - intros Hlt. unfold format_size. cbn [format_size_loop lt_1024].
    rewrite (proj2 (Z.ltb_lt _ _)) by exact Hlt.
    now rewrite format_2f_int by exact Hsize.
  - intros [Hge Hlt]. rewrite Hstart by exact Hge.
    rewrite format_size_loop_stop; [reflexivity | split; [lia | exact Hlt]].
  - intros [Hge Hlt]. rewrite Hstart by lia.
    rewrite format_size_loop_next by exact Hge.
    rewrite format_size_loop_stop; [reflexivity | split; [lia | exact Hlt]].
  - intros [Hge Hlt]. rewrite Hstart by lia.
    rewrite format_size_loop_next by (change (1024 ^ Z.of_nat 2) with (1024 ^ 2); lia).
    rewrite format_size_loop_next by exact Hge.
    rewrite format_size_loop_stop; [reflexivity | split; [lia | exact Hlt]].
  - intros Hge. rewrite Hstart by lia.
    rewrite format_size_loop_next by (change (1024 ^ Z.of_nat 2) with (1024 ^ 2); lia).
    rewrite format_size_loop_next by (change (1024 ^ Z.of_nat 3) with (1024 ^ 3); lia).
    rewrite format_size_loop_next by exact Hge.
    cbn [format_size_loop]. now rewrite format_2f_float_nonneg by lia.
Qed.

(** An instance: one kibibyte and a half. *)
Lemma format_size_units_witness : format_size 1536 = Some "1.50 KB"%string.
Proof.
  rewrite (proj1 (proj2 (format_size_units 1536 ltac:(lia))) ltac:(lia)).
  reflexivity.
Defined.

(** Half-even rounding of a quotient is off by at most half a unit and lies
    between the floor and the ceiling. *)
Lemma round_half_even_spec (a b : Z) :
  0 < b ->
  2 * Z.abs (a - round_half_even a b * b) <= b
  /\ a / b <= round_half_even a b <= a / b + 1.
Proof.
  intros Hb. unfold round_half_even.
  pose proof (Z.div_mod a b ltac:(lia)) as Hdiv.
  pose proof (Z.mod_pos_bound a b Hb) as Hmod.
  set (q := a / b) in *. set (r := a mod b) in *.
  destruct (Z.ltb_spec (2 * r) b) as [Hlow|Hhigh].
  - split; [|lia]. replace (a - q * b) with r by lia. lia.
  - destruct (Z.ltb_spec b (2 * r)) as [Hup|Htie].
    + split; [|lia]. replace (a - (q + 1) * b) with (r - b) by lia. lia.
    + destruct (Z.even q).
      * split; [|lia]. replace (a - q * b) with r by lia. lia.
      * split; [|lia]. replace (a - (q + 1) * b) with (r - b) by lia. lia.
Qed.

(** X20. For a size of at least 1024 and below 1024^4 bytes, [format_size]
    prints, in the unit KB, MB or GB whose power of 1024 is the largest one
    not above the size, a number of hundredths within half a hundredth of
    the exact quotient, between 1.00 and 1024.00 inclusive: the unit is
    chosen before the rounding, so a size just under the next threshold is
    printed as [1024.00] of the smaller unit. *)
Theorem format_size_rounding (size : Z) (k : nat) :
  (1 <= k <= 3)%nat ->
  1024 ^ Z.of_nat k <= size < 1024 ^ Z.of_nat (S k) ->
  (exists h,
     format_size size
     = Some (decimal_2 h +:+ " "
             +:+ nth k ["B"; "KB"; "MB"; "GB"]%string ""%string)
     /\ 2 * Z.abs (100 * size - h * 1024 ^ Z.of_nat k) <= 1024 ^ Z.of_nat k
     /\ 100 <= h <= 102400)
  /\ format_size (1024 ^ 2 - 1) = Some "1024.00 KB"%string.
Proof.
  intros Hk [Hlow Hhigh]. split; [|vm_compute; reflexivity].
  exists (round_half_even (100 * size) (1024 ^ Z.of_nat k)).
  assert (Hb : 0 < 1024 ^ Z.of_nat k) by (apply Z.pow_pos_nonneg; lia).
  assert (Hsize : 0 <= size < 2 ^ 53).
  { split; [lia|]. eapply Z.lt_le_trans; [exact Hhigh|].
    transitivity (1024 ^ 4); [apply Z.pow_le_mono_r; lia | lia]. }
  assert (Hkb : 1024 <= size).
  { transitivity (1024 ^ Z.of_nat k); [|exact Hlow].
    change 1024 with (1024 ^ 1) at 1. apply Z.pow_le_mono_r; lia. }
  assert (Hstart : format_size size
                   = format_size_loop ["KB"; "MB"; "GB"]%string (Float size 1)).
  { unfold format_size. cbn [format_size_loop lt_1024].
    rewrite (proj2 (Z.ltb_ge _ _)) by exact Hkb.
    now rewrite div_1024_int by exact Hsize. }
  split; [|split].
  - rewrite Hstart. destruct k as [|[|[|[|k]]]]; try lia.
    + rewrite format_size_loop_stop; [reflexivity | split; [lia | exact Hhigh]].
    + rewrite format_size_loop_next by exact Hlow.
      rewrite format_size_loop_stop; [reflexivity | split; [lia | exact Hhigh]].
    + assert (Hmb : 1024 ^ Z.of_nat 2 <= size).
      { transitivity (1024 ^ Z.of_nat 3); [|exact Hlow].
        apply Z.pow_le_mono_r; lia. }
      rewrite format_size_loop_next by exact Hmb.
      rewrite format_size_loop_next by exact Hlow.
      rewrite format_size_loop_stop; [reflexivity | split; [lia | exact Hhigh]].
  - apply (round_half_even_spec (100 * size) _ Hb).
  - rewrite Nat2Z.inj_succ, Z.pow_succ_r in Hhigh by lia.
    set (b := 1024 ^ Z.of_nat k) in *.
    destruct (round_half_even_spec (100 * size) b Hb) as [_ [Hfloor Hceil]].
    assert (Hq1 : 100 <= 100 * size / b)
      by (apply Z.div_le_lower_bound; lia).
    assert (Hq2 : 100 * size / b < 102400)
      by (apply Z.div_lt_upper_bound; lia).
    lia.
Qed.

(** An instance: one byte under a mebibyte, in KB. *)
Lemma format_size_rounding_witness :
  exists h,
    format_size (1024 ^ 2 - 1) = Some (decimal_2 h +:+ " " +:+ "KB")
    /\ 2 * Z.abs (100 * (1024 ^ 2 - 1) - h * 1024 ^ Z.of_nat 1)
       <= 1024 ^ Z.of_nat 1
    /\ 100 <= h <= 102400.
Proof.
  exact (proj1 (format_size_rounding (1024 ^ 2 - 1) 1
                  ltac:(lia)
                  ltac:(vm_compute; split; [discriminate | reflexivity]))).
Defined.

(** *** Status edits and download tracking *)



(** X22. The tracking loop has one way to return: an update that reports
    the download complete (or a download complete from the start, in which
    case nothing is done at all). It reads no other field of the download,
    so a download that the daemon never reports complete, for instance a
    failed one, is polled for as long as the updates go on. The only
    exceptions that leave the loop are those of the updates: no failure of a
    status edit does. *)
Theorem track_download_progress_endings (is_complete : bool)
    (polls : list poll) (edits : list edit_outcome) :
  track_download_progress true polls edits = ([], Returned)
  /\ (snd (track_download_progress false polls edits) = Returned ->
      Updated true ∈ polls)
  /\ (forall e,
        snd (track_download_progress is_complete polls edits) = Raised e ->
        UpdateRaises e ∈ polls)
  /\ (Forall (fun p => p = Updated false) polls ->
      snd (track_download_progress false polls edits) = StillRunning).
Proof.
  split; [now destruct polls as [|[]]|].
  assert (Hgen : forall c (edits0 : list edit_outcome),
            (snd (track_download_progress c polls edits0) = Returned ->
             c = true \/ Updated true ∈ polls)
            /\ (forall e,
                  snd (track_download_progress c polls edits0) = Raised e ->
                  UpdateRaises e ∈ polls)).
  { induction polls as [|p polls IH]; intros c edits0.
    - destruct c; simpl; split; auto; discriminate.
    - destruct c; [simpl; destruct p; split; auto; discriminate|].
      destruct p as [c'|e0]; simpl.
      + destruct (safe_edit edits0) as [steps [edits'|]];
          [|split; discriminate].
        specialize (IH c' edits').
        destruct (track_download_progress c' polls edits') as [steps' e'].
        simpl in *. destruct IH as [IHret IHraise]. split.
        * intros He. right. destruct (IHret He) as [->|Hin];
            [left | now right].
        * intros e He. right. now apply IHraise.
      + split; [discriminate|]. intros e [= <-]. left. }
  split; [|split].
  - intros Hret. destruct (proj1 (Hgen false edits) Hret); [discriminate|].
    assumption.
  - apply Hgen.
  - clear Hgen. intros Hall. revert edits.
    induction Hall as [|p polls -> _ IH]; intros edits0; [reflexivity|].
    simpl. destruct (safe_edit edits0) as [steps [edits'|]]; [|reflexivity].
    specialize (IH edits').
    now destruct (track_download_progress false polls edits').
Qed.

(** An instance: the second update reports the download complete. *)
Lemma track_download_progress_endings_witness :
  Updated true ∈ [Updated false; Updated true; UpdateRaises OSError].
Proof.
  apply (proj1 (proj2 (track_download_progress_endings false
                  [Updated false; Updated true; UpdateRaises OSError]
                  [EditReturns; EditReturns]))).
  reflexivity.
Defined.

End ProgressFacts.

(** ** The link scan of the message handler *)

Module HandlerFacts.

Import Url Handlers.

(** The words of [split] are not empty and hold no separator. *)
Lemma split_aux_words (s : string) :
  all_chars (fun a => negb (is_space a)) (split_aux s).1 = true
  /\ Forall (fun w => w <> ""%string
                    /\ all_chars (fun a => negb (is_space a)) w = true)
       (split_aux s).2.
Proof.
  induction s as [|a s [IHword IHwords]]; simpl; [split; [reflexivity | constructor]|].
  destruct (split_aux s) as [word words]. simpl in *.
  destruct (is_space a) eqn:Ha; simpl.
  - split; [reflexivity|].
    destruct word as [|b word]; [assumption|].
    constructor; [split; [discriminate | assumption] | assumption].
  - rewrite Ha. simpl. split; assumption.
Qed.

Section Scan.

Variable check : string -> bool.

(** What the scan of a list of words returns, by the first word that the
    validator does not refuse. *)
Lemma first_valid_url_spec (words : list string) :
  (forall url, first_valid_url check words = Ok (Some url) ->
     exists before after,
       words = before ++ url :: after
       /\ Forall (fun w => is_valid_url check w = Ok false) before
       /\ is_valid_url check url = Ok true)
  /\ (first_valid_url check words = Ok None <->
      Forall (fun w => is_valid_url check w = Ok false) words)
  /\ (forall e, first_valid_url check words = Raise e ->
        exists before word after,
          words = before ++ word :: after
          /\ Forall (fun w => is_valid_url check w = Ok false) before
          /\ is_valid_url check word = Raise e).
Proof.
  induction words as [|word words (IHsome & IHnone & IHraise)]; simpl.
  - split; [discriminate|]. split; [|discriminate].
    split; [constructor | reflexivity].
  - destruct (is_valid_url check word) as [[|]|e0] eqn:Hword.
    + split; [|split].
      * intros url [= <-]. exists [], words. repeat split; [constructor | exact Hword].
      * split; [discriminate|]. intros Hall. inversion Hall; congruence.
      * discriminate.
    + split; [|split].
      * intros url Hurl.
        destruct (IHsome url Hurl) as (before & after & -> & Hbefore & Hok).
        exists (word :: before), after.
        repeat split; [now constructor | exact Hok].
      * rewrite IHnone. split; [now constructor | intros H; now inversion H].
      * intros e He.
        destruct (IHraise e He) as (before & w & after & -> & Hbefore & Hw).
        exists (word :: before), w, after.
        repeat split; [now constructor | exact Hw].
    + split; [|split].
      * discriminate.
      * split; [discriminate|]. intros Hall. inversion Hall; congruence.
      * intros e [= <-]. exists [], word, words.
        repeat split; [constructor | exact Hword].
Qed.

(** X23. The handler takes as link the first word of the message, in
    reading order, that the validator accepts, a word being a maximal run of
    characters without white space; the words after it are not examined, so
    nothing in them matters. It finds no link exactly when the validator
    refuses every word. When a word makes the validator raise before any
    word is accepted, the exception leaves the scan, which has no handler
    for it. *)
Theorem find_link_spec (text : string) :
  Forall (fun w => w <> ""%string
                   /\ all_chars (fun a => negb (is_space a)) w = true)
    (split text)
  /\ (forall url, find_link check text = Ok (Some url) ->
        exists before after,
          split text = before ++ url :: after
          /\ Forall (fun w => is_valid_url check w = Ok false) before
          /\ is_valid_url check url = Ok true)
  /\ (find_link check text = Ok None <->
      Forall (fun w => is_valid_url check w = Ok false) (split text))
  /\ (forall e, find_link check text = Raise e ->
        exists before word after,
          split text = before ++ word :: after
          /\ Forall (fun w => is_valid_url check w = Ok false) before
          /\ is_valid_url check word = Raise e).
Proof.
  split; [|apply first_valid_url_spec].
  unfold split. destruct (split_aux_words text) as [Hword Hwords].
  destruct (split_aux text) as [word words]. simpl in *.
  destruct word as [|a word]; [assumption|].
  constructor; [split; [discriminate | assumption] | assumption].
Qed.

End Scan.

(** An instance: a link after a word that the validator cannot parse. *)
Lemma find_link_spec_witness :
  exists before word after,
    split "http://[ https://terabox.com/s/1" = before ++ word :: after
    /\ Forall (fun w => is_valid_url (fun _ => true) w = Ok false) before
    /\ is_valid_url (fun _ => true) word = Raise ValueError.
Proof.
  apply (proj2 (proj2 (proj2
           (find_link_spec (fun _ => true) "http://[ https://terabox.com/s/1")))).
  vm_compute. reflexivity.
Defined.

End HandlerFacts.

(** ** The split route as a whole *)

Module SplitUploadFacts.

Import Pipeline Scenarios PyFacts PipelineFacts UploadFacts SplitFacts.

(** The list returned by the loop is the list of the part paths, in order. *)
Lemma split_loop_parts (E : env) (path : string) (dpp : float) (n i : nat)
    (acc parts : list string) (w w' : world) :
  split_loop E path dpp n i acc w = (Ok parts, w') ->
  parts = acc ++ (part_path path <$> seq i n).
Proof.
  revert i acc w. induction n as [|n IH]; intros i acc w.
  - intros [= <- _]. simpl. now rewrite app_nil_r.
  - cbn [split_loop]. unfold bind at 1. unfold log at 1.
    destruct (ffmpeg_copy E (part_cmd path dpp i)) as [|rc written];
      [discriminate|].
    unfold bind at 1. destruct written as [size|]; cbn [write_file];
      intros Hrest; apply IH in Hrest; rewrite Hrest;
      simpl; now rewrite <- app_assoc.
Qed.

Lemma split_video_parts_list (E : env) (path : string)
    (parts : list string) (w w' : world) :
  split_video E path w = (Ok parts, w') ->
  exists n, parts = part_path path <$> seq 0 n.
Proof.
  unfold split_video, try_except.
  unfold bind at 1. unfold log at 1. unfold bind at 1.
  destruct (ffprobe_duration E path) as [|rc [total|]]; try discriminate.
  unfold ret at 1. unfold bind at 1. unfold getsize at 1. simpl.
  destruct (disk w !! path) as [size|]; [|discriminate].
  unfold bind at 1.
  destruct (ceil_truediv size DEFAULT_SPLIT_SIZE =? 0); [discriminate|].
  unfold ret at 1.
  destruct (split_loop E path _ _ 0 [] _) as [[l|e0] w1] eqn:Hloop;
    [|discriminate].
  intros [= <- _]. apply split_loop_parts in Hloop. eexists. exact Hloop.
Qed.

(** The upload loop changes the disk at thumbnail paths only. *)
Lemma for_each_upload_disk (E : env) (status : message)
    (parts : list string) (w : world) (q : string) :
  (forall part, part ∈ parts -> q <> part +:+ ".jpg") ->
  disk (snd (for_each (fun part => upload_file E part status) parts w)) !! q
  = disk w !! q.
Proof.
  revert w. induction parts as [|part parts IH]; intros w Hq; [reflexivity|].
  cbn [for_each]. unfold bind.
  destruct (upload_file_run E part status w) as (w1 & -> & Hdisk).
  assert (Hstep : disk w1 !! q = disk w !! q).
  { rewrite Hdisk. destruct (ffmpeg_thumbnail E part); [reflexivity|].
    rewrite lookup_delete_ne; [reflexivity|].
    apply not_eq_sym, Hq. left. }
  destruct (_ || _); simpl; [|exact Hstep].
  rewrite IH; [exact Hstep|]. intros p Hp. apply Hq. now right.
Qed.

(** The removal loop leaves every other path as it is. *)
Lemma for_each_safe_remove_disk (paths : list string) (w : world)
    (q : string) :
  q ∉ paths ->
  disk (snd (for_each safe_remove paths w)) !! q = disk w !! q.
Proof.
  revert w. induction paths as [|path paths IH]; intros w Hq; [reflexivity|].
  cbn [for_each]. unfold bind.
  destruct (safe_remove_run path w) as (w1 & -> & Hdisk).
  rewrite IH by (intros Hin; apply Hq; now right).
  rewrite Hdisk. apply lookup_delete_ne. intros ->. apply Hq. left.
Qed.

Lemma part_thumbnail_differs (path : string) (k : nat) :
  path <> part_path path k +:+ ".jpg".
Proof.
  unfold part_path. intros Heq.
  rewrite <- (splitext_join path) in Heq at 1.
  apply (f_equal String.length) in Heq.
  rewrite !length_app in Heq. simpl in Heq. lia.
Qed.

(** X8. When the split itself succeeds, [split_and_upload] ends as its
    upload loop ends, with every part off the disk, those that were never
    reached by the loop included, and with the fetched file still in place:
    on the split route the fetched file is left for the final cleanup. *)
Theorem split_and_upload_run (E : env) (path : string) (status : message)
    (w w1 : world) (parts : list string) :
  split_video E path w = (Ok parts, w1) ->
  fst (split_and_upload E path status w)
  = fst (for_each (fun part => upload_file E part status) parts w1)
  /\ (forall part, part ∈ parts ->
        disk (snd (split_and_upload E path status w)) !! part = None)
  /\ disk (snd (split_and_upload E path status w)) !! path = disk w !! path.
Proof.
  intros Hsplit.
  destruct (split_and_upload_removes_parts E path status w w1 parts Hsplit)
    as (w' & Hrun & Hgone).
  rewrite Hrun. simpl. split; [reflexivity|]. split; [exact Hgone|].
  destruct (split_video_parts_list E path parts w w1 Hsplit) as [n Hparts].
  unfold split_and_upload, try_finally in Hrun. rewrite Hsplit in Hrun.
  pose proof (for_each_upload_disk E status parts w1 path) as Hup.
  destruct (for_each _ parts w1) as [r w2]. simpl in Hup.
  pose proof (for_each_safe_remove_disk parts w2 path) as Hrm.
  destruct (for_each_safe_remove_run parts w2) as (w3 & Hrm' & _).
  rewrite Hrm' in Hrun, Hrm. simpl in Hrm. injection Hrun as <-.
  rewrite Hrm, Hup.
  - destruct (split_video_body E path w w1 (Ok parts) Hsplit) as [Hdisk _].
    apply Hdisk. intros k Heq. exact (part_path_differs path k (eq_sym Heq)).
  - intros part Hin. rewrite Hparts in Hin.
    apply list_elem_of_fmap in Hin as (k & -> & _).
    apply part_thumbnail_differs.
  - intros Hin. rewrite Hparts in Hin.
    apply list_elem_of_fmap in Hin as (k & Hk & _).
    exact (part_path_differs path k (eq_sym Hk)).
Qed.

(** An instance: the video of 5 GiB when the failure of the second upload
    cannot be reported. *)
Lemma split_and_upload_run_witness :
  (forall part,
     part ∈ ["/d/v.part001.mp4"; "/d/v.part002.mp4";
             "/d/v.part003.mp4"]%string ->
     disk (snd (split_and_upload MoreScenarios.second_upload_fails video
                  status_message fetched)) !! part = None)
  /\ disk (snd (split_and_upload MoreScenarios.second_upload_fails video
                  status_message fetched)) !! video = Some (5 * GiB).
Proof.
  exact (proj2 (split_and_upload_run MoreScenarios.second_upload_fails video
                  status_message fetched
                  (snd (split_video MoreScenarios.second_upload_fails video
                          fetched))
                  ["/d/v.part001.mp4"; "/d/v.part002.mp4";
                   "/d/v.part003.mp4"]%string eq_refl)).
Defined.

End SplitUploadFacts.

(** ** Thumbnails *)

Module ThumbnailFacts.

Import Pipeline Scenarios PipelineFacts UploadFacts.

(** X25. [generate_thumbnail] never raises. It returns the thumbnail path
    (the video path followed by [.jpg]) exactly when its process could be
    started and a file is at that path afterwards, be it the one just
    written or one that was already there, and [None] otherwise. It changes
    no other path of the disk, and nothing at all when the process cannot be
    started. *)
Theorem generate_thumbnail_run (E : env) (video_path : string) (w : world) :
  exists thumbnail w',
    generate_thumbnail E video_path w = (Ok thumbnail, w')
    /\ (thumbnail = Some (video_path +:+ ".jpg")
        \/ thumbnail = None)
    /\ (thumbnail = Some (video_path +:+ ".jpg") <->
        ffmpeg_thumbnail E video_path <> SpawnError
        /\ is_Some (disk w' !! (video_path +:+ ".jpg")))
    /\ (forall q, q <> video_path +:+ ".jpg" -> disk w' !! q = disk w !! q)
    /\ (ffmpeg_thumbnail E video_path = SpawnError -> disk w' = disk w).
Proof.
  unfold generate_thumbnail. run_monad.
  destruct (ffmpeg_thumbnail E video_path) as [|rc [size|]]; simpl.
  - exists None. eexists. split; [reflexivity|]. split; [now right|].
    split; [|split; [reflexivity | reflexivity]].
    split; [discriminate | intros [H _]; now destruct H].
  - rewrite lookup_insert_eq. simpl.
    exists (Some (video_path +:+ ".jpg")). eexists.
    split; [reflexivity|]. split; [now left|]. simpl. split; [|split].
    + split; [|reflexivity]. intros _. split; [discriminate|].
      rewrite lookup_insert_eq. now eexists.
    + intros q Hq. now rewrite lookup_insert_ne.
    + discriminate.
  - destruct (disk w !! (video_path +:+ ".jpg")) as [size|] eqn:Hthumb; simpl.
    + exists (Some (video_path +:+ ".jpg")). eexists.
      split; [reflexivity|]. split; [now left|]. simpl. split; [|split].
      * split; [|reflexivity]. intros _. split; [discriminate|].
        rewrite Hthumb. now eexists.
      * reflexivity.
      * discriminate.
    + exists None. eexists.
      split; [reflexivity|]. split; [now right|]. simpl. split; [|split].
      * split; [discriminate|]. intros [_ [x Hx]]. congruence.
      * reflexivity.
      * discriminate.
Qed.

(** An instance: the thumbnail process cannot be started. *)
Lemma generate_thumbnail_run_witness :
  exists thumbnail w',
    generate_thumbnail MoreScenarios.no_thumbnail_process video fetched
    = (Ok thumbnail, w')
    /\ disk w' = disk fetched.
Proof.
  destruct (generate_thumbnail_run MoreScenarios.no_thumbnail_process video
              fetched) as (thumbnail & w' & Hrun & _ & _ & _ & Hsame).
  exists thumbnail, w'. split; [exact Hrun | exact (Hsame eq_refl)].
Defined.

End ThumbnailFacts.
